(** * diffpy.srfit equation visitors: Printer and ArgFinder

    A shallow embedding of
      - src/diffpy/srfit/equation/visitors/printer.py   (class Printer)
      - src/diffpy/srfit/equation/visitors/argfinder.py (class ArgFinder)
    over a store of Literal objects.

    Python objects are references: a Literal tree is a store mapping
    locations to node objects, an Operator holding the locations of its
    children.  The visitor methods run in a state-and-exception monad whose
    state carries both the node store and the visitor's own attributes, so
    that what a traversal reads, writes and returns is explicit. *)

From Stdlib Require Import Strings.Ascii.
From stdpp Require Import base option list gmap strings pretty.

Open Scope string_scope.
Open Scope list_scope.

(** ** Python's [str] *)

Class PyStr (A : Type) := str : A → string.

(** [str(s)] of a Python string is the string itself. *)
#[export] Instance str_string : PyStr string := λ s, s.

(** [str(None)] is ["None"]; [" %s " % x] formats [x] with [str]. *)
#[export] Instance str_optional : PyStr (option string) := λ o,
  match o with
  | Some s => s
  | None => "None"
  end.

(** [str(n)] of a Python int is its decimal numeral. *)
#[export] Instance str_int : PyStr Z := λ z, pretty z.

(** ** Outcomes and the traversal monad *)

Inductive exn : Type :=
  | IndexError       (* list index out of range *)
  | AttributeError   (* the object has no such attribute *)
  | RecursionError.  (* maximum recursion depth exceeded *)

Inductive res (A : Type) : Type :=
  | Ok (a : A)
  | Raise (e : exn).
Arguments Ok {A} a.
Arguments Raise {A} e.

Definition is_Ok {A} (r : res A) : bool :=
  match r with
  | Ok _ => true
  | Raise _ => false
  end.

Definition loc := positive.

Section Literals.

(** The type of [Argument.value]; the Printer makes "no assumption about the
    argument type" and only applies [str] to it. *)
Context {Value : Type} `{!PyStr Value}.

(** ** Node model

    The Literal classes (diffpy.srfit.equation.literals) are not among the
    sources.  The records below hold the attributes the visitors read. *)

(** Modelled from the spec: the class Argument, a leaf with an optional
    name, a value and a constant flag (spec section 3). *)
Record Argument : Type := mkArgument {
  arg_name  : option string;   (* [None] is Python's None *)
  arg_value : Value;
  arg_const : bool
}.

(** Modelled from the spec: the class Operator, with a display name, an
    optional symbol, its expected arity [nin] and the ordered list of its
    children, which need not have length [nin] (spec section 3). *)
Record Operator : Type := mkOperator {
  op_name   : string;
  op_symbol : option string;
  op_nin    : Z;
  op_args   : list loc          (* references to the child Literals *)
}.

(** Modelled from the spec: a Literal is one of the two node kinds. *)
Inductive Literal : Type :=
  | ArgumentObj (a : Argument)
  | OperatorObj (o : Operator).

(** The state of a traversal: the node store and the visitor [self]. *)
Record world (V : Type) : Type := World {
  heap : gmap loc Literal;
  self : V
}.
Arguments World {V} heap self.
Arguments heap {V} w.
Arguments self {V} w.

Definition M (V A : Type) : Type := world V → res A * world V.

Definition ret {V A} (a : A) : M V A := λ w, (Ok a, w).

Definition bind {V A B} (m : M V A) (k : A → M V B) : M V B := λ w,
  match m w with
  | (Ok a, w') => k a w'
  | (Raise e, w') => (Raise e, w')
  end.

Definition raise {V A} (e : exn) : M V A := λ w, (Raise e, w).

#[export] Instance M_ret {V} : MRet (M V) := λ A, ret.
#[export] Instance M_bind {V} : MBind (M V) := λ A B k m, bind m k.

(** Attribute reads [arg.f] and [op.f]. *)
Definition arg_attr {V A} (f : Argument → A) (arg : loc) : M V A := λ w,
  match heap w !! arg with
  | Some (ArgumentObj a) => (Ok (f a), w)
  | _ => (Raise AttributeError, w)
  end.

Definition op_attr {V A} (f : Operator → A) (op : loc) : M V A := λ w,
  match heap w !! op with
  | Some (OperatorObj o) => (Ok (f o), w)
  | _ => (Raise AttributeError, w)
  end.

(** List subscription [xs[i]] for a non-negative constant [i]. *)
Definition subscript {V A} (xs : list A) (i : nat) : M V A :=
  match xs !! i with
  | Some x => ret x
  | None => raise IndexError
  end.

(** [for idx, x in enumerate(xs): body], the counter starting at [idx]. *)
Fixpoint for_enumerate {V A} (body : nat → A → M V unit) (idx : nat)
    (xs : list A) : M V unit :=
  match xs with
  | [] => ret ()
  | x :: xs' => body idx x;; for_enumerate body (S idx) xs'
  end.

(** [for x in xs: body]. *)
Fixpoint for_each {V A} (body : A → M V unit) (xs : list A) : M V unit :=
  match xs with
  | [] => ret ()
  | x :: xs' => body x;; for_each body xs'
  end.

(** ** The Visitor interface and double dispatch *)

Class Visitor (V R : Type) : Type := {
  onArgument : loc → M V R;
  (* the first argument is [identify], bound late through the children *)
  onOperator : (loc → M V R) → loc → M V R
}.

(** Modelled from the spec: [Literal.identify(visitor)] (the spec's [accept])
    is not among the sources.  It invokes exactly one of the visitor's two
    operations, passing the node itself, and returns that operation's result
    unchanged.  [depth] is the number of nested [identify] frames the
    interpreter still allows; an object that is no Literal has no
    [identify]. *)
Fixpoint identify `{Visitor V R} (depth : nat) (literal : loc) : M V R :=
  match depth with
  | O => raise RecursionError
  | S depth' => λ w,
      match heap w !! literal with
      | Some (ArgumentObj _) => onArgument literal w
      | Some (OperatorObj _) => onOperator (identify depth') literal w
      | None => (Raise AttributeError, w)
      end
  end.

(** ** class Printer (printer.py) *)

Record Printer : Type := mkPrinter {
  output : string   (* "The output generated by the printer." *)
}.

(** [self.output += s] *)
Definition output_iadd (s : string) : M Printer unit := λ w,
  (Ok (), World (heap w) (mkPrinter (output (self w) +:+ s))).

(** [self.output] *)
Definition get_output : M Printer string := λ w, (Ok (output (self w)), w).

(** [Printer.reset]: [self.output = ""]. *)
Definition Printer_reset : M Printer unit := λ w,
  (Ok (), World (heap w) (mkPrinter "")).

(** [Printer()]: [__init__] only calls [self.reset()]. *)
Definition Printer_new : Printer := mkPrinter "".

(** The value a Printer method returns: [Some s] is the string [s], [None]
    is Python's None (a bare [return]). *)
Definition Printer_onArgument (arg : loc) : M Printer (option string) :=
  name ← arg_attr arg_name arg;
  (if decide (name = None)
   then value ← arg_attr arg_value arg; output_iadd (str value)
   else name ← arg_attr arg_name arg; output_iadd (str name));;
  out ← get_output;
  mret (Some out).

Definition Printer__onInfix (identify : loc → M Printer (option string))
    (op : loc) : M Printer unit :=
  output_iadd "(";;
  args ← op_attr op_args op;
  arg0 ← subscript args 0;
  identify arg0;;
  symbol ← op_attr op_symbol op;
  output_iadd (" " +:+ str symbol +:+ " ");;
  args ← op_attr op_args op;
  arg1 ← subscript args 1;
  identify arg1;;
  output_iadd ")".

(** [op.name != op.symbol and op.nin == 2], [and] evaluating its right
    operand only when the left one holds. *)
Definition is_infix (op : loc) : M Printer bool :=
  name ← op_attr op_name op;
  symbol ← op_attr op_symbol op;
  if decide (Some name ≠ symbol)
  then nin ← op_attr op_nin op; mret (bool_decide (nin = 2%Z))
  else mret false.

Definition Printer_onOperator (identify : loc → M Printer (option string))
    (op : loc) : M Printer (option string) :=
  infix ← is_infix op;
  if infix : bool then
    Printer__onInfix identify op;;
    mret None
  else
    name ← op_attr op_name op;
    output_iadd (str name +:+ "(");;
    args ← op_attr op_args op;
    for_enumerate (λ idx literal,
      (if decide (idx ≠ 0) then output_iadd ", " else mret ());;
      identify literal;;
      mret ()) 0 args;;
    output_iadd ")";;
    out ← get_output;
    mret (Some out).

#[export] Instance Printer_Visitor : Visitor Printer (option string) := {|
  onArgument := Printer_onArgument;
  onOperator := Printer_onOperator
|}.

(** ** class ArgFinder (argfinder.py) *)

Record ArgFinder : Type := mkArgFinder {
  args : list loc;     (* "The list of collected Arguments", by reference *)
  getconsts : bool     (* "Flag indicating whether to grab constant arguments." *)
}.

(** [ArgFinder(getconsts)]: [self.args = []; self.getconsts = getconsts]. *)
Definition ArgFinder_new (getconsts : bool) : ArgFinder :=
  mkArgFinder [] getconsts.

(** [ArgFinder.reset]: [self.args = []]. *)
Definition ArgFinder_reset : M ArgFinder unit := λ w,
  (Ok (), World (heap w) (mkArgFinder [] (getconsts (self w)))).

(** [self.args.append(arg)] *)
Definition args_append (arg : loc) : M ArgFinder unit := λ w,
  (Ok (), World (heap w)
     (mkArgFinder (args (self w) ++ [arg]) (getconsts (self w)))).

Definition get_args : M ArgFinder (list loc) := λ w, (Ok (args (self w)), w).

Definition get_getconsts : M ArgFinder bool := λ w,
  (Ok (getconsts (self w)), w).

(** [self.getconsts or not arg.const], [or] evaluating its right operand only
    when the left one fails. *)
Definition wanted (arg : loc) : M ArgFinder bool :=
  gc ← get_getconsts;
  if gc : bool then mret true
  else const ← arg_attr arg_const arg; mret (negb const).

Definition ArgFinder_onArgument (arg : loc) : M ArgFinder (list loc) :=
  keep ← wanted arg;
  (if keep : bool then args_append arg else mret ());;
  get_args.

Definition ArgFinder_onOperator (identify : loc → M ArgFinder (list loc))
    (op : loc) : M ArgFinder (list loc) :=
  children ← op_attr op_args op;
  for_each (λ arg, identify arg;; mret ()) children;;
  get_args.

#[export] Instance ArgFinder_Visitor : Visitor ArgFinder (list loc) := {|
  onArgument := ArgFinder_onArgument;
  onOperator := ArgFinder_onOperator
|}.

(** ** The client protocol

    What a client does with a visitor: construct it, call the root's
    [identify] with it, then read the accumulator. *)

(** Modelled from the spec: [render(root)], that is [p = Printer();
    root.identify(p); p.output]. *)
Definition render (depth : nat) (h : gmap loc Literal) (root : loc)
    : res string :=
  fst ((identify depth root;; get_output) (World h Printer_new)).

(** Modelled from the spec: [find(root)], that is [f = ArgFinder(getconsts);
    root.identify(f); f.args]. *)
Definition find (getconsts : bool) (depth : nat) (h : gmap loc Literal)
    (root : loc) : res (list loc) :=
  fst ((identify depth root;; get_args) (World h (ArgFinder_new getconsts))).

(** ** Trees

    The spec speaks of cycle-free trees.  [unfold depth h root] is the tree
    that the store [h] unfolds to from [root], when that unfolding is finite
    and at most [depth] levels deep; a node shared by reference unfolds once
    per occurrence. *)

#[local] Unset Elimination Schemes.
Inductive tree : Type :=
  | Leaf (l : loc) (a : Argument)
  | Node (l : loc) (o : Operator) (children : list tree).
#[local] Set Elimination Schemes.

Fixpoint unfold (depth : nat) (h : gmap loc Literal) (l : loc) : option tree :=
  match depth with
  | O => None
  | S depth' =>
      match h !! l with
      | Some (ArgumentObj a) => Some (Leaf l a)
      | Some (OperatorObj o) => Node l o <$> mapM (unfold depth' h) (op_args o)
      | None => None
      end
  end.

(** The Argument-leaf occurrences of a tree, depth-first, left to right. *)
Fixpoint leaves (t : tree) : list (loc * Argument) :=
  match t with
  | Leaf l a => [(l, a)]
  | Node _ _ ts => concat (map leaves ts)
  end.

(** The number of Argument occurrences of a tree. *)
Fixpoint count_arguments (t : tree) : nat :=
  match t with
  | Leaf _ _ => 1
  | Node _ _ ts => sum_list (map count_arguments ts)
  end.

(** The occurrences the spec's ArgFinder keeps: all of them when [getconsts],
    else those whose [const] flag is false. *)
Definition kept (getconsts : bool) (occ : loc * Argument) : bool :=
  getconsts || negb (arg_const occ.2).

Definition occurrences (getconsts : bool) (t : tree) : list loc :=
  (filter (λ occ, kept getconsts occ = true) (leaves t)).*1.

(** The Printer's routing test on the attributes of an Operator. *)
Definition routed_infix (o : Operator) : bool :=
  bool_decide (Some (op_name o) ≠ op_symbol o) && bool_decide (op_nin o = 2%Z).

(** Well-formed trees.  The spec calls a graph malformed when a "declared
    arity disagrees with actual child count": here [len(children) == nin]
    holds at every Operator. *)
Fixpoint well_formed (t : tree) : bool :=
  match t with
  | Leaf _ _ => true
  | Node _ o ts =>
      bool_decide (Z.of_nat (length ts) = op_nin o) && forallb well_formed ts
  end.

(** [const] of the Argument at [l]; false when [l] holds no Argument. *)
Definition const_at (h : gmap loc Literal) (l : loc) : bool :=
  match h !! l with
  | Some (ArgumentObj a) => arg_const a
  | _ => false
  end.

(** ** Vocabulary of the properties *)

(** [preserves proj m]: the part [proj] of the state is the same after [m]
    as before, whether [m] returns or raises. *)
Definition preserves {V A X} (proj : world V → X) (m : M V A) : Prop :=
  ∀ w, proj (m w).2 = proj w.

(** Both visitors only ever append to their accumulator.  [prepend s v] is
    the visitor [v] with [s] put in front of what it has accumulated. *)
Class Accumulator (V T : Type) := prepend : T → V → V.

#[export] Instance Printer_accumulator : Accumulator Printer string :=
  λ s p, mkPrinter (s +:+ output p).

Definition res_map {A B} (f : A → B) (r : res A) : res B :=
  match r with
  | Ok a => Ok (f a)
  | Raise e => Raise e
  end.

(** How a returned value moves when the accumulator is prefixed. *)
Definition same {T A} : T → A → A := λ _ a, a.
Definition prefixed_output : string → option string → option string :=
  λ s v, String.append s <$> v.

(** [equivariant φ m]: running [m] on a prefixed accumulator gives the run
    on the bare accumulator, prefixed. *)
Definition shifted `{Accumulator V T} {A} (φ : T → A → A) (s : T)
    (p : res A * world V) : res A * world V :=
  (res_map (φ s) p.1, World (heap p.2) (prepend s (self p.2))).

Definition equivariant `{Accumulator V T} {A} (φ : T → A → A) (m : M V A)
    : Prop :=
  ∀ s w, m (World (heap w) (prepend s (self w))) = shifted φ s (m w).

(** What a traversal from a new Printer returns, and what it writes. *)
Definition outcome (depth : nat) (h : gmap loc Literal) (l : loc)
    : res (option string) :=
  (identify depth l (World h Printer_new)).1.

Definition written (depth : nat) (h : gmap loc Literal) (l : loc) : string :=
  output (self (identify depth l (World h Printer_new)).2).

(** The text after the first child in a function call: [", "] before each
    further child. *)
Fixpoint continued (ss : list string) : string :=
  match ss with
  | [] => ""
  | t :: ss' => ", " +:+ t +:+ continued ss'
  end.

(** ** Further vocabulary *)

Definition res_bind {A B} (r : res A) (k : A → res B) : res B :=
  match r with
  | Ok a => k a
  | Raise e => Raise e
  end.

(** Map over a list, stopping at the first element that raises. *)
Definition res_mapM {A B} (f : A → res B) : list A → res (list B) :=
  fix go xs :=
    match xs with
    | [] => Ok []
    | x :: xs' =>
        res_bind (f x) (λ y, res_bind (go xs') (λ ys, Ok (y :: ys)))
    end.

(** The text of an Argument leaf. *)
Definition leaf_text (a : Argument) : string :=
  match arg_name a with
  | Some name => name
  | None => str (arg_value a)
  end.

(** What a tree denotes as a string, by recursion on the tree: the reading
    of a whole render against which the Printer is compared.  An Operator
    routed to the infix form needs two children; every child is rendered
    before the next one is looked at. *)
Fixpoint tree_render (t : tree) : res string :=
  match t with
  | Leaf _ a => Ok (leaf_text a)
  | Node _ o ts =>
      if routed_infix o then
        match ts with
        | [] => Raise IndexError
        | [t0] => res_bind (tree_render t0) (λ _, Raise IndexError)
        | t0 :: t1 :: _ =>
            res_bind (tree_render t0) (λ s0,
            res_bind (tree_render t1) (λ s1,
            Ok ("(" +:+ s0 +:+ " " +:+ str (op_symbol o) +:+ " " +:+ s1
                +:+ ")")))
        end
      else
        res_bind (res_mapM tree_render ts) (λ ss,
        Ok (op_name o +:+ "(" +:+ String.concat ", " ss +:+ ")"))
  end.

#[export] Instance ArgFinder_accumulator : Accumulator ArgFinder (list loc) :=
  λ acc v, mkArgFinder (acc ++ args v) (getconsts v).

Definition prefixed_args : list loc → list loc → list loc := app.

(** What a traversal from a new ArgFinder returns, and what it collects. *)
Definition find_outcome (getconsts : bool) (depth : nat)
    (h : gmap loc Literal) (l : loc) : res (list loc) :=
  (identify depth l (World h (ArgFinder_new getconsts))).1.

Definition found (getconsts : bool) (depth : nat) (h : gmap loc Literal)
    (l : loc) : list loc :=
  args (self (identify depth l (World h (ArgFinder_new getconsts))).2).

(** [m] returns, when it returns, the output as it stands afterwards. *)
Definition returns_output (m : M Printer (option string)) : Prop :=
  ∀ w v w', m w = (Ok v, w') → v = Some (output (self w')).

(** [maintains Q m]: a state property [Q] that holds before [m] holds
    after it, whether [m] returns or raises. *)
Definition maintains {V A} (Q : world V → Prop) (m : M V A) : Prop :=
  ∀ w, Q w → Q (m w).2.

(** [extends m m']: [m'] does what [m] does wherever [m] does not run out
    of recursion depth. *)
Definition extends {V A} (m m' : M V A) : Prop :=
  ∀ w r w', m w = (r, w') → r ≠ Raise RecursionError → m' w = (r, w').

(** [l] holds an Argument that an ArgFinder with this [getconsts] keeps. *)
Definition holds_kept_argument (h : gmap loc Literal) (getconsts : bool)
    (l : loc) : Prop :=
  ∃ a, h !! l = Some (ArgumentObj a) ∧ (getconsts = false → arg_const a = false).

Definition only_kept_arguments (w : world ArgFinder) : Prop :=
  Forall (holds_kept_argument (heap w) (getconsts (self w))) (args (self w)).

(** Two objects an ArgFinder cannot tell apart: Arguments with the same
    [const], or Operators with the same [args]. *)
Definition same_links (x y : Literal) : Prop :=
  match x, y with
  | ArgumentObj a, ArgumentObj a' => arg_const a = arg_const a'
  | OperatorObj o, OperatorObj o' => op_args o = op_args o'
  | _, _ => False
  end.

(** Two objects a Printer cannot tell apart: Arguments with the same [name]
    and [value], or Operators with the same [name], [symbol], [nin] and
    [args]. *)
Definition same_text (x y : Literal) : Prop :=
  match x, y with
  | ArgumentObj a, ArgumentObj a' =>
      arg_name a = arg_name a' ∧ arg_value a = arg_value a'
  | OperatorObj o, OperatorObj o' => o = o'
  | _, _ => False
  end.

(** Two stores that hold related objects at the same locations. *)
Definition stores_related (sim : Literal → Literal → Prop)
    (h h' : gmap loc Literal) : Prop :=
  ∀ l, option_Forall2 sim (h !! l) (h' !! l).

(** [m] does the same on both stores: same outcome, same visitor state,
    either store as it was. *)
Definition agree {V A} (h h' : gmap loc Literal) (m : M V A) : Prop :=
  ∀ v, ∃ r v',
    m (World h v) = (r, World h v') ∧ m (World h' v) = (r, World h' v').

(** The number of occurrences of a character in a string. *)
Fixpoint count_char (c : Ascii.ascii) (s : string) : nat :=
  match s with
  | EmptyString => 0
  | String c' s' => (if Ascii.eqb c c' then 1 else 0) + count_char c s'
  end.

(** As many opening as closing parentheses. *)
Definition balanced (s : string) : bool :=
  Nat.eqb (count_char "("%char s) (count_char ")"%char s).

(** Every text a render of the tree takes from the nodes is balanced: the
    leaf texts, the names of the Operators rendered as calls and the symbols
    of those rendered infix. *)
Fixpoint labels_balanced (t : tree) : bool :=
  match t with
  | Leaf _ a => balanced (leaf_text a)
  | Node _ o ts =>
      (if routed_infix o then balanced (str (op_symbol o))
       else balanced (op_name o))
      && forallb labels_balanced ts
  end.

End Literals.

Arguments World {Value V} heap self.
Arguments heap {Value V} w.
Arguments self {Value V} w.

(** ** Sample graphs *)

Module Samples.

Definition x : loc := 1%positive.
Definition y : loc := 2%positive.
Definition two : loc := 3%positive.
Definition add : loc := 4%positive.
Definition mul : loc := 5%positive.
Definition sin : loc := 6%positive.
Definition bad : loc := 7%positive.
Definition nullary : loc := 8%positive.
Definition twice : loc := 9%positive.
Definition blank : loc := 10%positive.

Definition h : gmap loc (@Literal Z) :=
  list_to_map [
    (x, ArgumentObj (mkArgument (Some "x") 1%Z false));
    (y, ArgumentObj (mkArgument (Some "y") 5%Z true));
    (two, ArgumentObj (mkArgument None 2%Z true));
    (add, OperatorObj (mkOperator "add" (Some "+") 2 [x; y]));
    (mul, OperatorObj (mkOperator "multiply" (Some "*") 2 [add; two]));
    (sin, OperatorObj (mkOperator "sin" (Some "sin") 1 [mul]));
    (bad, OperatorObj (mkOperator "subtract" (Some "-") 2 [x]));
    (nullary, OperatorObj (mkOperator "rand" (Some "rand") 0 []));
    (twice, OperatorObj (mkOperator "add" (Some "+") 2 [x; x]));
    (blank, ArgumentObj (mkArgument (Some "") 7%Z false))
  ].

End Samples.

(** * Properties *)

(** ** Strings *)

Lemma append_nil_r (s : string) : s +:+ "" = s.
Proof.
  induction s as [|c s IH]; [done | exact (f_equal (String c) IH)].
Qed.

Lemma append_assoc (s t u : string) : (s +:+ t) +:+ u = s +:+ (t +:+ u).
Proof.
  induction s as [|c s IH]; [done | exact (f_equal (String c) IH)].
Qed.

Section Properties.

Context {Value : Type} `{!PyStr Value}.

#[local] Abbreviation Literal := (@Literal Value).
#[local] Abbreviation store := (gmap loc Literal).
#[local] Abbreviation world := (@world Value).
#[local] Abbreviation M := (@M Value).
#[local] Abbreviation tree := (@tree Value).
#[local] Abbreviation preserves := (preserves (Value:=Value)).
#[local] Abbreviation equivariant := (equivariant (Value:=Value)).
#[local] Abbreviation returns_output := (returns_output (Value:=Value)).
#[local] Abbreviation maintains := (maintains (Value:=Value)).
#[local] Abbreviation extends := (extends (Value:=Value)).
#[local] Abbreviation agree := (agree (Value:=Value)).

(** ** Runs of the monad *)

Lemma run_bind {V A B} (m : M V A) (k : A → M V B) (w : world V) :
  (m ≫= k) w =
  match m w with
  | (Ok a, w') => k a w'
  | (Raise e, w') => (Raise e, w')
  end.
Proof. reflexivity. Qed.

(** ** Frame: what a computation leaves as it found it

    With [proj := heap], [preserves proj m] says that [m] assigns to no
    node. *)

Section Preserves.

Context {V X : Type} (proj : world V → X).

Lemma preserves_ret {A} (a : A) : preserves proj (mret a).
Proof. by intros w. Qed.

Lemma preserves_raise {A} e : preserves proj (raise e : M V A).
Proof. by intros w. Qed.

Lemma preserves_bind {A B} (m : M V A) (k : A → M V B) :
  preserves proj m → (∀ a, preserves proj (k a)) → preserves proj (m ≫= k).
Proof.
  intros Hm Hk w. rewrite run_bind. specialize (Hm w).
  destruct (m w) as [[a|e] w']; simpl in *; [|done].
  by rewrite Hk.
Qed.

Lemma preserves_arg_attr {A} (f : Argument → A) l : preserves proj (arg_attr f l).
Proof. intros w. unfold arg_attr. by destruct (heap w !! l) as [[]|]. Qed.

Lemma preserves_op_attr {A} (f : Operator → A) l : preserves proj (op_attr f l).
Proof. intros w. unfold op_attr. by destruct (heap w !! l) as [[]|]. Qed.

Lemma preserves_subscript {A} (xs : list A) i : preserves proj (subscript xs i).
Proof. intros w. unfold subscript. by destruct (xs !! i). Qed.

Lemma preserves_for_enumerate {A} (body : nat → A → M V unit) idx xs :
  (∀ i x, preserves proj (body i x)) →
  preserves proj (for_enumerate body idx xs).
Proof.
  intros Hb. revert idx. induction xs as [|x xs IH]; intros idx; simpl.
  - apply preserves_ret.
  - apply preserves_bind; auto.
Qed.

Lemma preserves_for_each {A} (body : A → M V unit) xs :
  (∀ x, preserves proj (body x)) → preserves proj (for_each body xs).
Proof.
  intros Hb. induction xs as [|x xs IH]; simpl.
  - apply preserves_ret.
  - apply preserves_bind; auto.
Qed.

(** Any visitor whose two operations preserve [proj], the second one given
    an [identify] that does, preserves it along the whole traversal. *)
Lemma preserves_identify `{!Visitor V R} :
  (∀ l, preserves proj (onArgument l)) →
  (∀ rec l, (∀ l', preserves proj (rec l')) →
            preserves proj (onOperator rec l)) →
  ∀ depth l, preserves proj (identify depth l).
Proof.
  intros HA HO depth. induction depth as [|d IH]; intros l w; simpl.
  - done.
  - destruct (heap w !! l) as [[a|o]|]; [apply HA | by apply HO | done].
Qed.

End Preserves.

Create HintDb frame.
#[local] Hint Resolve preserves_ret preserves_raise preserves_arg_attr
  preserves_op_attr preserves_subscript : frame.

Ltac frame :=
  repeat first
    [ progress eauto with frame
    | apply preserves_bind; [|intros ?]
    | apply preserves_for_enumerate; intros ? ?
    | apply preserves_for_each; intros ?
    | case_decide
    | match goal with |- preserves _ (if ?b then _ else _) => destruct b end
    | by intros ? ].

Lemma Printer_onArgument_keeps_heap l : preserves heap (Printer_onArgument l).
Proof. unfold Printer_onArgument. frame. Qed.

Lemma Printer_onOperator_keeps_heap rec l :
  (∀ l', preserves heap (rec l')) → preserves heap (Printer_onOperator rec l).
Proof.
  intros Hrec. unfold Printer_onOperator, is_infix, Printer__onInfix. frame.
Qed.

Lemma Printer_identify_keeps_heap depth l :
  preserves heap (identify (V:=Printer) depth l).
Proof.
  apply preserves_identify;
    [apply Printer_onArgument_keeps_heap | apply Printer_onOperator_keeps_heap].
Qed.

Lemma ArgFinder_onArgument_keeps_heap l : preserves heap (ArgFinder_onArgument l).
Proof. unfold ArgFinder_onArgument, wanted. frame. Qed.

Lemma ArgFinder_onOperator_keeps_heap rec l :
  (∀ l', preserves heap (rec l')) → preserves heap (ArgFinder_onOperator rec l).
Proof. intros Hrec. unfold ArgFinder_onOperator. frame. Qed.

Lemma ArgFinder_identify_keeps_heap depth l :
  preserves heap (identify (V:=ArgFinder) depth l).
Proof.
  apply preserves_identify;
    [apply ArgFinder_onArgument_keeps_heap
    | apply ArgFinder_onOperator_keeps_heap].
Qed.

(** A traversal never assigns to [self.getconsts]. *)
Lemma ArgFinder_identify_keeps_getconsts depth l :
  preserves (λ w, getconsts (self w)) (identify (V:=ArgFinder) depth l).
Proof.
  apply preserves_identify.
  - intros l'. unfold ArgFinder_onArgument, wanted. frame.
  - intros rec l' Hrec. unfold ArgFinder_onOperator. frame.
Qed.

(** ** Prefix independence

    A computation is equivariant when running it on a prefixed accumulator
    gives the run on the bare accumulator, prefixed: what it appends and
    whether it raises do not depend on what was accumulated before. *)

Section Equivariance.

Context `{Accumulator V T}.

Lemma equivariant_ret {A} (a : A) : equivariant same (mret a).
Proof. by intros s w. Qed.

Lemma equivariant_raise {A} (φ : T → A → A) e : equivariant φ (raise e).
Proof. by intros s w. Qed.

Lemma equivariant_bind {A B} (φ : T → A → A) (ψ : T → B → B)
    (m : M V A) (k : A → M V B) :
  equivariant φ m →
  (∀ a, equivariant ψ (k a)) →
  (∀ s a w, k (φ s a) w = k a w) →
  equivariant ψ (m ≫= k).
Proof.
  intros Hm Hk Hφ s w. rewrite !run_bind, Hm. unfold shifted.
  destruct (m w) as [[a|e] w']; simpl; [|done].
  by rewrite Hφ, Hk.
Qed.

Lemma equivariant_arg_attr {A} (f : Argument → A) l :
  equivariant same (arg_attr f l).
Proof. intros s w. unfold arg_attr. simpl. by destruct (heap w !! l) as [[]|]. Qed.

Lemma equivariant_op_attr {A} (f : Operator → A) l :
  equivariant same (op_attr f l).
Proof. intros s w. unfold op_attr. simpl. by destruct (heap w !! l) as [[]|]. Qed.

Lemma equivariant_subscript {A} (xs : list A) i :
  equivariant same (subscript xs i).
Proof. intros s w. unfold subscript. by destruct (xs !! i). Qed.

Lemma equivariant_for_enumerate {A} (body : nat → A → M V unit) idx xs :
  (∀ i x, equivariant same (body i x)) →
  equivariant same (for_enumerate body idx xs).
Proof.
  intros Hb. revert idx. induction xs as [|x xs IH]; intros idx; simpl.
  - apply equivariant_ret.
  - eapply equivariant_bind; [apply Hb | intros _; apply IH | done].
Qed.

Lemma equivariant_for_each {A} (body : A → M V unit) xs :
  (∀ x, equivariant same (body x)) → equivariant same (for_each body xs).
Proof.
  intros Hb. induction xs as [|x xs IH]; simpl.
  - apply equivariant_ret.
  - eapply equivariant_bind; [apply Hb | intros _; apply IH | done].
Qed.

Lemma equivariant_identify `{!Visitor V R} (φ : T → R → R) :
  (∀ l, equivariant φ (onArgument l)) →
  (∀ rec l, (∀ l', equivariant φ (rec l')) → equivariant φ (onOperator rec l)) →
  ∀ depth l, equivariant φ (identify depth l).
Proof.
  intros HA HO depth. induction depth as [|d IH]; intros l s w; simpl.
  - done.
  - destruct (heap w !! l) as [[a|o]|]; [apply HA | by apply HO | done].
Qed.

End Equivariance.

Create HintDb equi.
#[local] Hint Resolve equivariant_ret equivariant_raise equivariant_arg_attr
  equivariant_op_attr equivariant_subscript : equi.

Ltac equi :=
  repeat first
    [ progress eauto with equi
    | eapply equivariant_bind; [| intros ? | by intros ? ? ?]
    | apply equivariant_for_enumerate; intros ? ?
    | apply equivariant_for_each; intros ?
    | case_decide
    | match goal with |- equivariant _ (if ?b then _ else _) => destruct b end ].

Lemma equivariant_output_iadd t : equivariant same (output_iadd t).
Proof.
  intros s w. unfold output_iadd, shifted, prepend, Printer_accumulator.
  simpl. by rewrite append_assoc.
Qed.

Lemma equivariant_return_output :
  equivariant prefixed_output (out ← get_output; mret (Some out)).
Proof. by intros s w. Qed.

#[local] Hint Resolve equivariant_output_iadd equivariant_return_output : equi.

Lemma Printer_onArgument_equivariant l :
  equivariant prefixed_output (Printer_onArgument l).
Proof. unfold Printer_onArgument. equi. Qed.

Lemma Printer_onOperator_equivariant rec l :
  (∀ l', equivariant prefixed_output (rec l')) →
  equivariant prefixed_output (Printer_onOperator rec l).
Proof.
  intros Hrec. unfold Printer_onOperator, is_infix, Printer__onInfix. equi.
Qed.

Lemma Printer_identify_equivariant depth l :
  equivariant prefixed_output (identify (V:=Printer) depth l).
Proof.
  apply equivariant_identify;
    [apply Printer_onArgument_equivariant
    | apply Printer_onOperator_equivariant].
Qed.

(** ** Printer: one traversal, from any accumulated output *)

Lemma Printer_identify_run depth h l s :
  identify depth l (World h (mkPrinter s)) =
  (res_map (prefixed_output s) (outcome depth h l),
   World h (mkPrinter (s +:+ written depth h l))).
Proof.
  pose proof (Printer_identify_equivariant depth l s (World h Printer_new)) as E.
  pose proof (Printer_identify_keeps_heap depth l (World h Printer_new)) as F.
  unfold shifted, prepend, Printer_accumulator in E. simpl in E, F.
  rewrite append_nil_r in E. by rewrite E, F.
Qed.

Lemma render_outcome depth h l :
  render depth h l =
  match outcome depth h l with
  | Ok _ => Ok (written depth h l)
  | Raise e => Raise e
  end.
Proof.
  unfold render, outcome, written. rewrite run_bind.
  by destruct (identify depth l (World h Printer_new)) as [[v|e] w].
Qed.

Lemma render_Ok depth h l t :
  render depth h l = Ok t →
  ∃ v, outcome depth h l = Ok v ∧ written depth h l = t.
Proof.
  rewrite render_outcome. destruct (outcome depth h l) as [v|e]; [|done].
  intros [= <-]. eauto.
Qed.

(** A child that renders to [t] appends [t], whatever was written before. *)
Lemma identify_rendered depth h l t s :
  render depth h l = Ok t →
  ∃ v, identify depth l (World h (mkPrinter s)) =
       (Ok v, World h (mkPrinter (s +:+ t))).
Proof.
  intros (v & Hv & <-)%render_Ok. rewrite Printer_identify_run, Hv. eauto.
Qed.

Lemma arg_attr_run {V A} (f : Argument → A) (h : store) (v : V) l a :
  h !! l = Some (ArgumentObj a) →
  arg_attr f l (World h v) = (Ok (f a), World h v).
Proof. intros Hl. unfold arg_attr. simpl. by rewrite Hl. Qed.

Lemma op_attr_run {V A} (f : Operator → A) (h : store) (v : V) l o :
  h !! l = Some (OperatorObj o) →
  op_attr f l (World h v) = (Ok (f o), World h v).
Proof. intros Hl. unfold op_attr. simpl. by rewrite Hl. Qed.

Lemma run_ret {V A} (a : A) (w : world V) : (mret a : M V A) w = (Ok a, w).
Proof. reflexivity. Qed.

Lemma run_output_iadd t (h : store) s :
  output_iadd t (World h (mkPrinter s)) = (Ok (), World h (mkPrinter (s +:+ t))).
Proof. reflexivity. Qed.

Lemma run_subscript {V A} (xs : list A) i x (w : world V) :
  xs !! i = Some x → subscript xs i w = (Ok x, w).
Proof. intros Hx. unfold subscript. by rewrite Hx. Qed.

Lemma run_subscript_None {V A} (xs : list A) i (w : world V) :
  xs !! i = None → subscript xs i w = (Raise IndexError, w).
Proof. intros Hx. unfold subscript. by rewrite Hx. Qed.

(** Step through binds, returns and writes. *)
Ltac run :=
  repeat (first [ rewrite run_bind | rewrite run_ret | rewrite run_output_iadd ];
          cbv beta iota).

(** Step over an attribute read of the object described by [Hl]. *)
Ltac getattr Hl :=
  rewrite ?run_bind;
  first [ rewrite (op_attr_run _ _ _ _ _ Hl)
        | rewrite (arg_attr_run _ _ _ _ _ Hl) ];
  cbv beta iota.

Lemma is_infix_run (h : store) p l o :
  h !! l = Some (OperatorObj o) →
  is_infix l (World h p) = (Ok (routed_infix o), World h p).
Proof.
  intros Hl. unfold is_infix, routed_infix.
  getattr Hl. getattr Hl. case_decide as Hne.
  - getattr Hl. by rewrite (bool_decide_eq_true_2 _ Hne).
  - by rewrite bool_decide_eq_false_2 by (intros Hx; by apply Hx).
Qed.

(** The two branches of [Printer.onOperator]. *)
Lemma onOperator_infix_run (h : store) p l o rec :
  h !! l = Some (OperatorObj o) →
  routed_infix o = true →
  Printer_onOperator rec l (World h p) =
  (Printer__onInfix rec l;; mret None) (World h p).
Proof.
  intros Hl Hr. unfold Printer_onOperator at 1.
  by rewrite run_bind, (is_infix_run _ _ _ _ Hl), Hr.
Qed.

Lemma concat_continued t ss :
  String.concat ", " (t :: ss) = t +:+ continued ss.
Proof.
  revert t. induction ss as [|t' ss IH]; intros t.
  - simpl. by rewrite append_nil_r.
  - change (String.concat ", " (t :: t' :: ss))
      with (t +:+ ", " +:+ String.concat ", " (t' :: ss)).
    by rewrite IH.
Qed.

(** The loop of the function-call branch, entered at a counter [idx]. *)
Lemma call_loop_run depth (h : store) cs ss :
  Forall2 (λ c t, render depth h c = Ok t) cs ss →
  ∀ idx s,
    for_enumerate (λ idx literal,
      (if decide (idx ≠ 0) then output_iadd ", " else mret ());;
      identify depth literal;;
      mret ()) idx cs (World h (mkPrinter s)) =
    (Ok (),
     World h (mkPrinter (s +:+
       match idx, ss with
       | O, [] => ""
       | O, t :: ss' => t +:+ continued ss'
       | S _, _ => continued ss
       end))).
Proof.
  induction 1 as [|c t cs ss Hc _ IH]; intros idx s.
  - simpl. destruct idx; by rewrite append_nil_r.
  - cbn [for_enumerate]. destruct idx as [|idx].
    + destruct (identify_rendered _ _ _ _ s Hc) as [v Hv].
      rewrite decide_False by (intros Hx; by apply Hx).
      run. rewrite Hv. run. rewrite IH. by rewrite append_assoc.
    + destruct (identify_rendered _ _ _ _ (s +:+ ", ") Hc) as [v Hv].
      rewrite decide_True by done.
      run. rewrite Hv. run. rewrite IH. cbn [continued].
      by rewrite !append_assoc.
Qed.

Lemma onOperator_call_run depth (h : store) l o ss s :
  h !! l = Some (OperatorObj o) →
  routed_infix o = false →
  Forall2 (λ c t, render depth h c = Ok t) (op_args o) ss →
  let out := s +:+ op_name o +:+ "(" +:+ String.concat ", " ss +:+ ")" in
  Printer_onOperator (identify depth) l (World h (mkPrinter s)) =
  (Ok (Some out), World h (mkPrinter out)).
Proof.
  intros Hl Hr Hcs out. unfold Printer_onOperator.
  rewrite run_bind, (is_infix_run _ _ _ _ Hl), Hr. cbv beta iota.
  getattr Hl. run. getattr Hl. run.
  rewrite (call_loop_run _ _ _ _ Hcs). run.
  assert (out = (((s +:+ str (op_name o) +:+ "(") +:+
                 match ss with [] => "" | t :: ss' => t +:+ continued ss' end)
                 +:+ ")")) as ->; [|done].
  unfold out, str, str_string. rewrite !append_assoc.
  destruct ss as [|t ss]; [done | by rewrite concat_continued, !append_assoc].
Qed.

Lemma onInfix_run depth (h : store) l o c0 c1 rest s0 s1 s :
  h !! l = Some (OperatorObj o) →
  op_args o = c0 :: c1 :: rest →
  render depth h c0 = Ok s0 →
  render depth h c1 = Ok s1 →
  Printer__onInfix (identify depth) l (World h (mkPrinter s)) =
  (Ok (), World h (mkPrinter
     (s +:+ "(" +:+ s0 +:+ " " +:+ str (op_symbol o) +:+ " " +:+ s1 +:+ ")"))).
Proof.
  intros Hl Hargs H0 H1. unfold Printer__onInfix.
  run. getattr Hl. rewrite Hargs.
  run. rewrite (run_subscript _ 0 c0) by done. run.
  destruct (identify_rendered _ _ _ _ (s +:+ "(") H0) as [v0 ->].
  run. getattr Hl. run. getattr Hl. rewrite Hargs.
  run. rewrite (run_subscript _ 1 c1) by done. run.
  destruct (identify_rendered _ _ _ _
    (((s +:+ "(") +:+ s0) +:+ " " +:+ str (op_symbol o) +:+ " ") H1) as [v1 ->].
  run. by rewrite !append_assoc.
Qed.

Lemma onInfix_no_child (h : store) l o rec s :
  h !! l = Some (OperatorObj o) →
  op_args o = [] →
  Printer__onInfix rec l (World h (mkPrinter s)) =
  (Raise IndexError, World h (mkPrinter (s +:+ "("))).
Proof.
  intros Hl Hargs. unfold Printer__onInfix.
  run. getattr Hl. rewrite Hargs. run.
  by rewrite run_subscript_None.
Qed.

Lemma onInfix_one_child depth (h : store) l o c t s :
  h !! l = Some (OperatorObj o) →
  op_args o = [c] →
  render depth h c = Ok t →
  Printer__onInfix (identify depth) l (World h (mkPrinter s)) =
  (Raise IndexError,
   World h (mkPrinter (s +:+ "(" +:+ t +:+ " " +:+ str (op_symbol o) +:+ " "))).
Proof.
  intros Hl Hargs Hc. unfold Printer__onInfix.
  run. getattr Hl. rewrite Hargs.
  run. rewrite (run_subscript _ 0 c) by done. run.
  destruct (identify_rendered _ _ _ _ (s +:+ "(") Hc) as [v ->].
  run. getattr Hl. run. getattr Hl. rewrite Hargs. run.
  rewrite run_subscript_None by done. by rewrite !append_assoc.
Qed.

Lemma Printer_identify_argument depth (h : store) p l a :
  h !! l = Some (ArgumentObj a) →
  identify (S depth) l (World h p) = Printer_onArgument l (World h p).
Proof. intros Hl. cbn [identify heap]. by rewrite Hl. Qed.

Lemma Printer_identify_operator depth (h : store) p l o :
  h !! l = Some (OperatorObj o) →
  identify (S depth) l (World h p) =
  Printer_onOperator (identify depth) l (World h p).
Proof. intros Hl. cbn [identify heap]. by rewrite Hl. Qed.

Lemma onArgument_run (h : store) l a s :
  h !! l = Some (ArgumentObj a) →
  let out := s +:+ match arg_name a with
                   | Some name => name
                   | None => str (arg_value a)
                   end in
  Printer_onArgument l (World h (mkPrinter s)) =
  (Ok (Some out), World h (mkPrinter out)).
Proof.
  intros Hl out. unfold Printer_onArgument. getattr Hl.
  subst out. destruct (arg_name a) as [name|] eqn:Hname.
  - rewrite decide_False by done. run. getattr Hl. by rewrite Hname.
  - rewrite decide_True by done. run. by getattr Hl.
Qed.

Lemma render_run depth (h : store) l v t :
  identify depth l (World h Printer_new) = (Ok v, World h (mkPrinter t)) →
  render depth h l = Ok t.
Proof. intros Hrun. unfold render. by rewrite run_bind, Hrun. Qed.

Lemma render_run_Raise depth (h : store) l e w :
  identify depth l (World h Printer_new) = (Raise e, w) →
  render depth h l = Raise e.
Proof. intros Hrun. unfold render. by rewrite run_bind, Hrun. Qed.

Lemma render_argument depth (h : store) l a :
  h !! l = Some (ArgumentObj a) →
  render (S depth) h l =
  Ok match arg_name a with
     | Some name => name
     | None => str (arg_value a)
     end.
Proof.
  intros Hl. eapply render_run.
  rewrite (Printer_identify_argument _ _ _ _ _ Hl). unfold Printer_new.
  rewrite (onArgument_run _ _ _ _ Hl). reflexivity.
Qed.

Lemma routed_infix_true o :
  routed_infix o = true ↔ Some (op_name o) ≠ op_symbol o ∧ op_nin o = 2%Z.
Proof.
  unfold routed_infix. rewrite andb_true_iff, !bool_decide_eq_true. done.
Qed.

Lemma routed_infix_false o :
  routed_infix o = false ↔ op_nin o ≠ 2%Z ∨ Some (op_name o) = op_symbol o.
Proof.
  unfold routed_infix. rewrite andb_false_iff, !bool_decide_eq_false.
  split.
  - intros [Hn|Hn]; [right | by left].
    by destruct (decide (Some (op_name o) = op_symbol o)).
  - intros [Hn|Hn]; [by right | left]. by intros Hx.
Qed.

(** C4: for every Argument leaf the Printer emits the argument's name when
    it has one, and otherwise [str] of the argument's value: [onArgument]
    appends exactly that text to the output (and returns the output), so a
    render of the leaf is that text. *)
Theorem Printer_argument_rendering (h : store) l a s depth :
  h !! l = Some (ArgumentObj a) →
  let text := match arg_name a with
              | Some name => name
              | None => str (arg_value a)
              end in
  Printer_onArgument l (World h (mkPrinter s)) =
    (Ok (Some (s +:+ text)), World h (mkPrinter (s +:+ text)))
  ∧ render (S depth) h l = Ok text.
Proof.
  intros Hl text. split.
  - by apply onArgument_run.
  - by apply render_argument.
Qed.

(** C10: the Printer's "has a name" test is [is None], not emptiness.  An
    Argument whose name is any string, the empty one included, renders as
    [str(name)]; one named [""] leaves the output as it was, so its value
    is not printed; an Argument whose name is None renders as
    [str(value)]. *)
Theorem Printer_name_test_is_None (h : store) l a depth :
  h !! l = Some (ArgumentObj a) →
  (∀ name, arg_name a = Some name →
     render (S depth) h l = Ok (str (Some name)) ∧ str (Some name) = name)
  ∧ (arg_name a = Some "" →
     ∀ s, (Printer_onArgument l (World h (mkPrinter s))).2
          = World h (mkPrinter s))
  ∧ (arg_name a = None → render (S depth) h l = Ok (str (arg_value a))).
Proof.
  intros Hl. split; [|split].
  - intros name Hname. split; [|done].
    by rewrite (render_argument _ _ _ _ Hl), Hname.
  - intros Hname s. rewrite (onArgument_run _ _ _ _ Hl), Hname.
    simpl. by rewrite append_nil_r.
  - intros Hname. by rewrite (render_argument _ _ _ _ Hl), Hname.
Qed.

Lemma render_infix depth (h : store) l o c0 c1 rest s0 s1 :
  h !! l = Some (OperatorObj o) →
  routed_infix o = true →
  op_args o = c0 :: c1 :: rest →
  render depth h c0 = Ok s0 →
  render depth h c1 = Ok s1 →
  identify (S depth) l (World h Printer_new) =
    (Ok None,
     World h (mkPrinter
       ("(" +:+ s0 +:+ " " +:+ str (op_symbol o) +:+ " " +:+ s1 +:+ ")"))).
Proof.
  intros Hl Hr Hargs H0 H1.
  rewrite (Printer_identify_operator _ _ _ _ _ Hl).
  rewrite (onOperator_infix_run _ _ _ _ _ Hl Hr).
  rewrite run_bind. unfold Printer_new.
  by rewrite (onInfix_run _ _ _ _ _ _ _ _ _ _ Hl Hargs H0 H1).
Qed.

Lemma render_call depth (h : store) l o ss :
  h !! l = Some (OperatorObj o) →
  routed_infix o = false →
  Forall2 (λ c t, render depth h c = Ok t) (op_args o) ss →
  let out := op_name o +:+ "(" +:+ String.concat ", " ss +:+ ")" in
  identify (S depth) l (World h Printer_new) =
    (Ok (Some out), World h (mkPrinter out)).
Proof.
  intros Hl Hr Hcs out.
  rewrite (Printer_identify_operator _ _ _ _ _ Hl). unfold Printer_new.
  by rewrite (onOperator_call_run _ _ _ _ _ _ Hl Hr Hcs).
Qed.

(** C2: an Operator with [nin == 2] and [name != symbol] is rendered as
    ["("], the rendering of its first child, [" "], the symbol, [" "],
    the rendering of its second child and [")"]; the result starts with
    ["("] and ends with [")"] whatever the children and the symbol are. *)
Theorem Printer_infix_rendering depth (h : store) l o c0 c1 rest s0 s1 :
  h !! l = Some (OperatorObj o) →
  op_nin o = 2%Z →
  Some (op_name o) ≠ op_symbol o →
  op_args o = c0 :: c1 :: rest →
  render depth h c0 = Ok s0 →
  render depth h c1 = Ok s1 →
  render (S depth) h l =
    Ok ("(" +:+ s0 +:+ " " +:+ str (op_symbol o) +:+ " " +:+ s1 +:+ ")")
  ∧ (∀ symbol, op_symbol o = Some symbol →
       render (S depth) h l =
         Ok ("(" +:+ s0 +:+ " " +:+ symbol +:+ " " +:+ s1 +:+ ")"))
  ∧ ∃ inner, render (S depth) h l = Ok ("(" +:+ inner +:+ ")").
Proof.
  intros Hl Hnin Hne Hargs H0 H1.
  assert (routed_infix o = true) as Hr by by apply routed_infix_true.
  pose proof (render_run _ _ _ _ _
    (render_infix _ _ _ _ _ _ _ _ _ Hl Hr Hargs H0 H1)) as Hrender.
  split; [done | split].
  - intros symbol Hsym. by rewrite Hrender, Hsym.
  - exists (s0 +:+ " " +:+ str (op_symbol o) +:+ " " +:+ s1).
    by rewrite Hrender, !append_assoc.
Qed.

(** C3: an Operator whose [nin] is not 2, or whose name equals its symbol,
    is rendered as a function call: the name, ["("], the renderings of all
    children in child order joined by [", "], and [")"]; with no children
    this is the name followed by ["()"]. *)
Theorem Printer_call_rendering depth (h : store) l o ss :
  h !! l = Some (OperatorObj o) →
  op_nin o ≠ 2%Z ∨ Some (op_name o) = op_symbol o →
  Forall2 (λ c t, render depth h c = Ok t) (op_args o) ss →
  render (S depth) h l =
    Ok (op_name o +:+ "(" +:+ String.concat ", " ss +:+ ")")
  ∧ (op_args o = [] → render (S depth) h l = Ok (op_name o +:+ "()")).
Proof.
  intros Hl Hr%routed_infix_false Hcs.
  pose proof (render_run _ _ _ _ _ (render_call _ _ _ _ _ Hl Hr Hcs))
    as Hrender.
  split; [done|].
  intros Hnil. rewrite Hnil in Hcs. apply Forall2_nil_inv_l in Hcs as ->.
  by rewrite Hrender.
Qed.

(** ** ArgFinder *)

Lemma run_wanted (h : store) acc gc l a :
  h !! l = Some (ArgumentObj a) →
  wanted l (World h (mkArgFinder acc gc)) =
  (Ok (gc || negb (arg_const a)), World h (mkArgFinder acc gc)).
Proof.
  intros Hl. unfold wanted. rewrite run_bind.
  change (get_getconsts (World h (mkArgFinder acc gc)))
    with (Ok gc, World h (mkArgFinder acc gc)).
  cbv beta iota. destruct gc; [done|]. by getattr Hl.
Qed.

Lemma ArgFinder_onArgument_run (h : store) l a acc gc :
  h !! l = Some (ArgumentObj a) →
  let acc' := if gc || negb (arg_const a) then acc ++ [l] else acc in
  ArgFinder_onArgument l (World h (mkArgFinder acc gc)) =
  (Ok acc', World h (mkArgFinder acc' gc)).
Proof.
  intros Hl acc'. unfold ArgFinder_onArgument.
  rewrite run_bind, (run_wanted _ _ _ _ _ Hl). cbv beta iota.
  subst acc'. by destruct (gc || negb (arg_const a)).
Qed.

Lemma ArgFinder_identify_argument depth (h : store) v l a :
  h !! l = Some (ArgumentObj a) →
  identify (S depth) l (World h v) = ArgFinder_onArgument l (World h v).
Proof. intros Hl. cbn [identify heap]. by rewrite Hl. Qed.

Lemma ArgFinder_identify_operator depth (h : store) v l o :
  h !! l = Some (OperatorObj o) →
  identify (S depth) l (World h v) =
  ArgFinder_onOperator (identify depth) l (World h v).
Proof. intros Hl. cbn [identify heap]. by rewrite Hl. Qed.

Lemma tree_ind (P : tree → Prop) :
  (∀ l a, P (Leaf l a)) →
  (∀ l o ts, Forall P ts → P (Node l o ts)) →
  ∀ t, P t.
Proof.
  intros HL HN. fix IH 1. intros [l a|l o ts]; [apply HL | apply HN].
  induction ts as [|t ts IHts]; constructor; [apply IH | apply IHts].
Qed.

Lemma occurrences_Leaf gc l (a : Argument (Value:=Value)) :
  occurrences gc (Leaf l a) = if gc || negb (arg_const a) then [l] else [].
Proof.
  unfold occurrences, kept. simpl. rewrite filter_cons. simpl.
  by destruct (gc || negb (arg_const a)).
Qed.

Lemma occurrences_Node gc l o (ts : list tree) :
  occurrences gc (Node l o ts) = concat (map (occurrences gc) ts).
Proof.
  unfold occurrences. simpl. induction ts as [|t ts IH]; [done|].
  simpl. by rewrite filter_app, fmap_app, IH.
Qed.

(** The children of an Operator, visited in order from an accumulator. *)
Lemma ArgFinder_children_run depth (h : store) gc cs ts :
  (∀ l T acc, unfold depth h l = Some T →
     identify depth l (World h (mkArgFinder acc gc)) =
     (Ok (acc ++ occurrences gc T),
      World h (mkArgFinder (acc ++ occurrences gc T) gc))) →
  Forall2 (λ c t, unfold depth h c = Some t) cs ts →
  ∀ acc,
    for_each (λ arg, identify depth arg;; mret ()) cs
      (World h (mkArgFinder acc gc)) =
    (Ok (), World h (mkArgFinder (acc ++ concat (map (occurrences gc) ts)) gc)).
Proof.
  intros IH. induction 1 as [|c t cs ts Hc _ IHcs]; intros acc.
  - simpl. by rewrite (right_id_L [] (++)).
  - cbn [for_each]. run. rewrite (IH _ _ _ Hc). run.
    rewrite IHcs. simpl. by rewrite (assoc_L (++)).
Qed.

(** From any accumulator, a traversal of a tree appends its kept
    occurrences and returns the accumulator. *)
Lemma ArgFinder_identify_tree depth (h : store) gc :
  ∀ l T acc, unfold depth h l = Some T →
    identify depth l (World h (mkArgFinder acc gc)) =
    (Ok (acc ++ occurrences gc T),
     World h (mkArgFinder (acc ++ occurrences gc T) gc)).
Proof.
  induction depth as [|d IH]; intros l T acc; [done|].
  cbn [unfold].
  destruct (h !! l) as [[a|o]|] eqn:Hl; [| |done].
  - intros [= <-]. rewrite (ArgFinder_identify_argument _ _ _ _ _ Hl).
    rewrite (ArgFinder_onArgument_run _ _ _ _ _ Hl), occurrences_Leaf.
    destruct (gc || negb (arg_const a)); [done|].
    by rewrite (right_id_L [] (++)).
  - destruct (mapM (unfold d h) (op_args o)) as [ts|] eqn:Hts; [|done].
    intros [= <-]. apply mapM_Some in Hts.
    rewrite (ArgFinder_identify_operator _ _ _ _ _ Hl).
    unfold ArgFinder_onOperator. getattr Hl. run.
    rewrite (ArgFinder_children_run _ _ _ _ _ IH Hts).
    by rewrite occurrences_Node.
Qed.

Lemma leaves_in_heap depth (h : store) :
  ∀ l T, unfold depth h l = Some T →
    Forall (λ occ, h !! occ.1 = Some (ArgumentObj occ.2)) (leaves T).
Proof.
  induction depth as [|d IH]; intros l T; [done|].
  cbn [unfold]. destruct (h !! l) as [[a|o]|] eqn:Hl; [| |done].
  - intros [= <-]. simpl. by constructor.
  - destruct (mapM (unfold d h) (op_args o)) as [ts|] eqn:Hts; [|done].
    intros [= <-]. apply mapM_Some in Hts. simpl.
    induction Hts as [|c t cs ts Hc _ IHts]; simpl; [done|].
    apply Forall_app. eauto.
Qed.

Lemma occurrences_all (t : tree) : occurrences true t = (leaves t).*1.
Proof.
  unfold occurrences, kept. f_equal.
  induction (leaves t) as [|occ occs IH]; [done|].
  rewrite filter_cons_True by done. by rewrite IH.
Qed.

Lemma length_leaves (t : tree) : length (leaves t) = count_arguments t.
Proof.
  induction t as [l a|l o ts IH] using tree_ind; [done|]. simpl.
  induction IH as [|t ts Ht _ IHts]; [done|].
  simpl. rewrite length_app. lia.
Qed.

(** C5: on a cycle-free tree the ArgFinder's result is the sequence of
    Argument-leaf occurrences, depth-first and left to right, keeping an
    occurrence exactly when [getconsts] holds or its [const] flag is false,
    without deduplication.  With [getconsts = true] its length is the number
    of Argument occurrences of the tree; with [getconsts = false] it is the
    [getconsts = true] result with every const occurrence removed. *)
Theorem ArgFinder_collects_occurrences depth (h : store) root T :
  unfold depth h root = Some T →
  (∀ gc, find gc depth h root
         = Ok (filter (λ occ, gc || negb (arg_const occ.2) = true)
                 (leaves T)).*1)
  ∧ (∃ found, find true depth h root = Ok found
        ∧ length found = count_arguments T
        ∧ find false depth h root
          = Ok (filter (λ l, const_at h l = false) found)).
Proof.
  intros HT.
  assert (∀ gc, find gc depth h root = Ok (occurrences gc T)) as Hfind.
  { intros gc. unfold find, ArgFinder_new. rewrite run_bind.
    by rewrite (ArgFinder_identify_tree _ _ _ _ _ _ HT). }
  split; [done|].
  exists (occurrences true T). split; [done | split].
  - by rewrite occurrences_all, length_fmap, length_leaves.
  - rewrite Hfind. f_equal. rewrite occurrences_all.
    unfold occurrences, kept.
    pose proof (leaves_in_heap _ _ _ _ HT) as Hheap.
    induction Hheap as [|[l a] occs Hl _ IH]; [done|].
    simpl in Hl. rewrite fmap_cons. cbn [fst].
    assert (const_at h l = arg_const a) as Hc
      by (unfold const_at; by rewrite Hl).
    destruct (arg_const a) eqn:Hca.
    + rewrite (filter_cons_False _ (l, a)) by (simpl; by rewrite Hca).
      by rewrite (filter_cons_False _ l) by (by rewrite Hc).
    + rewrite (filter_cons_True _ (l, a)) by (simpl; by rewrite Hca).
      rewrite (filter_cons_True _ l) by done.
      by rewrite fmap_cons, IH.
Qed.

(** ** Printer: errors *)

Lemma is_Ok_render depth (h : store) c :
  is_Ok (render depth h c) = true →
  render depth h c = Ok (written depth h c).
Proof.
  rewrite render_outcome. by destruct (outcome depth h c).
Qed.

Lemma Forall_rendered depth (h : store) cs :
  Forall (λ c, is_Ok (render depth h c) = true) cs →
  Forall2 (λ c t, render depth h c = Ok t) cs (map (written depth h) cs).
Proof.
  induction 1 as [|c cs Hc _ IH]; simpl; constructor;
    [by apply is_Ok_render | done].
Qed.

(** An Operator renders as soon as its children do and, when routed to the
    infix branch, it has two of them. *)
Lemma render_operator_Ok depth (h : store) l o :
  h !! l = Some (OperatorObj o) →
  (routed_infix o = true → (2 ≤ length (op_args o))%nat) →
  Forall (λ c, is_Ok (render depth h c) = true) (op_args o) →
  is_Ok (render (S depth) h l) = true.
Proof.
  intros Hl Hlen Hcs. destruct (routed_infix o) eqn:Hr.
  - destruct (op_args o) as [|c0 [|c1 rest]] eqn:Hargs;
      [simpl in Hlen; lia.. |].
    apply Forall_cons in Hcs as [H0%is_Ok_render Hcs].
    apply Forall_cons in Hcs as [H1%is_Ok_render _].
    by rewrite (render_run _ _ _ _ _
      (render_infix _ _ _ _ _ _ _ _ _ Hl Hr Hargs H0 H1)).
  - apply Forall_rendered in Hcs.
    by rewrite (render_run _ _ _ _ _ (render_call _ _ _ _ _ Hl Hr Hcs)).
Qed.

Lemma render_well_formed depth (h : store) :
  ∀ l T, unfold depth h l = Some T → well_formed T = true →
    is_Ok (render depth h l) = true.
Proof.
  induction depth as [|d IH]; intros l T; [done|].
  cbn [unfold]. destruct (h !! l) as [[a|o]|] eqn:Hl; [| |done].
  - intros _ _. by rewrite (render_argument _ _ _ _ Hl).
  - destruct (mapM (unfold d h) (op_args o)) as [ts|] eqn:Hts; [|done].
    intros [= <-]. apply mapM_Some in Hts. cbn [well_formed].
    rewrite andb_true_iff, bool_decide_eq_true. intros [Hnin Hwf].
    apply (render_operator_Ok _ _ _ _ Hl).
    + intros [_ Hnin2]%routed_infix_true.
      rewrite (Forall2_length _ _ _ Hts). lia.
    + clear Hnin. induction Hts as [|c t cs ts Hc _ IHts]; [done|].
      simpl in Hwf. apply andb_true_iff in Hwf as [Hwt Hwts].
      constructor; eauto.
Qed.

(** C9: the Printer raises no error on a well-formed tree; the child
    accesses [op.args[0]] and [op.args[1]] of the infix branch are in
    bounds when the Operator routed there has at least two children, and it
    then renders as soon as its children do; an Operator with
    [nin == 2] and [name != symbol] that has fewer than two children makes
    the infix branch subscript its children out of range, and that
    IndexError is the outcome of the render. *)
Theorem Printer_errors_only_on_malformed depth (h : store) l :
  (∀ T, unfold depth h l = Some T → well_formed T = true →
     is_Ok (render depth h l) = true)
  ∧ (∀ o, h !! l = Some (OperatorObj o) →
       op_nin o = 2%Z → Some (op_name o) ≠ op_symbol o →
       (2 ≤ length (op_args o))%nat →
       (∃ c0 c1, ∀ w : world Printer,
          subscript (op_args o) 0 w = (Ok c0, w)
          ∧ subscript (op_args o) 1 w = (Ok c1, w))
       ∧ (Forall (λ c, is_Ok (render depth h c) = true) (op_args o) →
          is_Ok (render (S depth) h l) = true))
  ∧ (∀ o, h !! l = Some (OperatorObj o) →
       op_nin o = 2%Z → Some (op_name o) ≠ op_symbol o →
       (length (op_args o) < 2)%nat →
       (∀ c, op_args o = [c] → is_Ok (render depth h c) = true) →
       render (S depth) h l = Raise IndexError).
Proof.
  split; [|split].
  - intros T. apply render_well_formed.
  - intros o Hl Hnin Hne Hlen. split.
    + destruct (op_args o) as [|c0 [|c1 rest]]; [simpl in Hlen; lia.. |].
      by exists c0, c1.
    + by apply (render_operator_Ok _ _ _ _ Hl).
  - intros o Hl Hnin Hne Hlen Hchild.
    assert (routed_infix o = true) as Hr by by apply routed_infix_true.
    destruct (op_args o) as [|c [|c1 rest]] eqn:Hargs;
      [| |simpl in Hlen; lia].
    + eapply render_run_Raise.
      rewrite (Printer_identify_operator _ _ _ _ _ Hl).
      rewrite (onOperator_infix_run _ _ _ _ _ Hl Hr).
      rewrite run_bind. unfold Printer_new.
      by rewrite (onInfix_no_child _ _ _ _ _ Hl Hargs).
    + specialize (Hchild c eq_refl). apply is_Ok_render in Hchild.
      eapply render_run_Raise.
      rewrite (Printer_identify_operator _ _ _ _ _ Hl).
      rewrite (onOperator_infix_run _ _ _ _ _ Hl Hr).
      rewrite run_bind. unfold Printer_new.
      by rewrite (onInfix_one_child _ _ _ _ _ _ _ Hl Hargs Hchild).
Qed.

(** ** Resetting and re-running *)

Lemma run_Printer_reset {A} (m : M Printer A) (w : world Printer) :
  (Printer_reset;; m) w = m (World (heap w) Printer_new).
Proof. reflexivity. Qed.

Lemma run_ArgFinder_reset {A} (m : M ArgFinder A) (w : world ArgFinder) :
  (ArgFinder_reset;; m) w =
  m (World (heap w) (ArgFinder_new (getconsts (self w)))).
Proof. reflexivity. Qed.

(** C6: rendering is deterministic.  A full render (reset, then the
    traversal) performed twice on the same Printer, the second starting from
    the state the first one left, yields the same output string and the same
    outcome. *)
Theorem Printer_render_deterministic depth root (w : world Printer) :
  let full_render := Printer_reset;; identify depth root in
  let first := full_render w in
  let second := full_render first.2 in
  output (self second.2) = output (self first.2) ∧ second.1 = first.1.
Proof.
  intros full_render first second. subst second first full_render.
  rewrite !run_Printer_reset.
  by rewrite (Printer_identify_keeps_heap depth root (World (heap w) _)).
Qed.

(** C7: after [reset()] the accumulator is empty, and a reset visitor
    traverses a tree exactly as a newly constructed one does (for the
    ArgFinder: one constructed with the same [getconsts]), whatever it
    traversed before. *)
Theorem reset_visitor_is_fresh (h : store) :
  (∀ p, Printer_reset (World h p) = (Ok (), World h Printer_new)
        ∧ output Printer_new = "")
  ∧ (∀ v, ArgFinder_reset (World h v)
          = (Ok (), World h (ArgFinder_new (getconsts v)))
          ∧ args (ArgFinder_new (getconsts v)) = [])
  ∧ (∀ depth1 earlier p depth root,
       let used := (identify depth1 earlier (World h p)).2 in
       (Printer_reset;; identify depth root) used
       = identify depth root (World h Printer_new))
  ∧ (∀ depth1 earlier v depth root,
       let used := (identify depth1 earlier (World h v)).2 in
       (ArgFinder_reset;; identify depth root) used
       = identify depth root (World h (ArgFinder_new (getconsts v)))).
Proof.
  split; [done | split; [done | split]].
  - intros depth1 earlier p depth root used. subst used.
    rewrite run_Printer_reset.
    by rewrite (Printer_identify_keeps_heap depth1 earlier (World h p)).
  - intros depth1 earlier v depth root used. subst used.
    rewrite run_ArgFinder_reset.
    rewrite (ArgFinder_identify_keeps_heap depth1 earlier (World h v)).
    by rewrite (ArgFinder_identify_keeps_getconsts depth1 earlier (World h v)).
Qed.

(** C8: no visitor operation mutates a node.  After a traversal by either
    visitor, finished or interrupted by an exception, the node store is the
    one before it: every location holds the same object, with the same
    [name], [value], [const], [symbol], [nin] and [args]. *)
Theorem visitors_do_not_mutate_nodes depth root :
  (∀ w : world Printer,
     heap (identify depth root w).2 = heap w
     ∧ (∀ l, heap (identify depth root w).2 !! l = heap w !! l)
     ∧ heap (Printer_onArgument root w).2 = heap w
     ∧ heap (Printer_onOperator (identify depth) root w).2 = heap w)
  ∧ (∀ w : world ArgFinder,
     heap (identify depth root w).2 = heap w
     ∧ (∀ l, heap (identify depth root w).2 !! l = heap w !! l)
     ∧ heap (ArgFinder_onArgument root w).2 = heap w
     ∧ heap (ArgFinder_onOperator (identify depth) root w).2 = heap w).
Proof.
  split; intros w.
  - pose proof (Printer_identify_keeps_heap depth root w) as E.
    simpl in E. rewrite E. repeat split.
    + apply Printer_onArgument_keeps_heap.
    + apply Printer_onOperator_keeps_heap, Printer_identify_keeps_heap.
  - pose proof (ArgFinder_identify_keeps_heap depth root w) as E.
    simpl in E. rewrite E. repeat split.
    + apply ArgFinder_onArgument_keeps_heap.
    + apply ArgFinder_onOperator_keeps_heap, ArgFinder_identify_keeps_heap.
Qed.

(** * Further properties *)

(** ** The Printer against the reading of a tree *)

Lemma identify_raised depth (h : store) l e s :
  render depth h l = Raise e →
  ∃ w', identify depth l (World h (mkPrinter s)) = (Raise e, w').
Proof.
  rewrite render_outcome. intros Hr. rewrite Printer_identify_run.
  destruct (outcome depth h l) as [v|e']; [done|].
  injection Hr as ->. eauto.
Qed.

Lemma res_mapM_Ok {A B} (f : A → res B) xs ys :
  res_mapM f xs = Ok ys → Forall2 (λ x y, f x = Ok y) xs ys.
Proof.
  revert ys. induction xs as [|x xs IH]; intros ys; simpl.
  - intros [= <-]. constructor.
  - destruct (f x) as [y|e] eqn:Hx; [|done]. simpl.
    destruct (res_mapM f xs) as [ys'|e]; [|done]. simpl.
    intros [= <-]. constructor; [done | by apply IH].
Qed.

Lemma onInfix_first_raises depth (h : store) l o c0 rest e s :
  h !! l = Some (OperatorObj o) →
  op_args o = c0 :: rest →
  render depth h c0 = Raise e →
  ∃ w', Printer__onInfix (identify depth) l (World h (mkPrinter s))
        = (Raise e, w').
Proof.
  intros Hl Hargs H0. unfold Printer__onInfix.
  run. getattr Hl. rewrite Hargs.
  run. rewrite (run_subscript _ 0 c0) by done. run.
  destruct (identify_raised _ _ _ _ (s +:+ "(") H0) as [w' ->]. eauto.
Qed.

Lemma onInfix_second_raises depth (h : store) l o c0 c1 rest s0 e s :
  h !! l = Some (OperatorObj o) →
  op_args o = c0 :: c1 :: rest →
  render depth h c0 = Ok s0 →
  render depth h c1 = Raise e →
  ∃ w', Printer__onInfix (identify depth) l (World h (mkPrinter s))
        = (Raise e, w').
Proof.
  intros Hl Hargs H0 H1. unfold Printer__onInfix.
  run. getattr Hl. rewrite Hargs.
  run. rewrite (run_subscript _ 0 c0) by done. run.
  destruct (identify_rendered _ _ _ _ (s +:+ "(") H0) as [v0 ->].
  run. getattr Hl. run. getattr Hl. rewrite Hargs.
  run. rewrite (run_subscript _ 1 c1) by done. run.
  destruct (identify_raised _ _ _ _
    (((s +:+ "(") +:+ s0) +:+ " " +:+ str (op_symbol o) +:+ " ") H1)
    as [w' ->].
  eauto.
Qed.

Lemma render_infix_raises depth (h : store) l o e w' :
  h !! l = Some (OperatorObj o) →
  routed_infix o = true →
  Printer__onInfix (identify depth) l (World h (mkPrinter "")) = (Raise e, w') →
  render (S depth) h l = Raise e.
Proof.
  intros Hl Hr Hrun. eapply render_run_Raise.
  rewrite (Printer_identify_operator _ _ _ _ _ Hl).
  rewrite (onOperator_infix_run _ _ _ _ _ Hl Hr).
  rewrite run_bind. unfold Printer_new. by rewrite Hrun.
Qed.

(** The loop of the function-call branch stops at the first child that
    raises. *)
Lemma call_loop_raises depth (h : store) cs ts e :
  Forall2 (λ c t, render depth h c = tree_render t) cs ts →
  res_mapM tree_render ts = Raise e →
  ∀ idx s, ∃ w',
    for_enumerate (λ idx literal,
      (if decide (idx ≠ 0) then output_iadd ", " else mret ());;
      identify depth literal;;
      mret ()) idx cs (World h (mkPrinter s)) = (Raise e, w').
Proof.
  induction 1 as [|c t cs ts Hc _ IH]; [done|]. simpl.
  destruct (tree_render t) as [y|e'] eqn:Ht; simpl.
  - destruct (res_mapM tree_render ts) as [ys|e'] eqn:Hts; [done|]. simpl.
    intros [= ->] idx s. destruct idx as [|idx].
    + destruct (identify_rendered _ _ _ _ s Hc) as [v Hv].
      rewrite decide_False by (intros Hx; by apply Hx).
      run. rewrite Hv. run. by apply IH.
    + destruct (identify_rendered _ _ _ _ (s +:+ ", ") Hc) as [v Hv].
      rewrite decide_True by done.
      run. rewrite Hv. run. by apply IH.
  - intros [= ->] idx s. destruct idx as [|idx].
    + destruct (identify_raised _ _ _ _ s Hc) as [w' Hw].
      rewrite decide_False by (intros Hx; by apply Hx).
      run. rewrite Hw. eauto.
    + destruct (identify_raised _ _ _ _ (s +:+ ", ") Hc) as [w' Hw].
      rewrite decide_True by done.
      run. rewrite Hw. eauto.
Qed.

Lemma render_call_raises depth (h : store) l o ts e :
  h !! l = Some (OperatorObj o) →
  routed_infix o = false →
  Forall2 (λ c t, render depth h c = tree_render t) (op_args o) ts →
  res_mapM tree_render ts = Raise e →
  render (S depth) h l = Raise e.
Proof.
  intros Hl Hr Hcs Hts.
  destruct (call_loop_raises _ _ _ _ _ Hcs Hts 0
              ("" +:+ str (op_name o) +:+ "(")) as [w' Hw].
  eapply render_run_Raise.
  rewrite (Printer_identify_operator _ _ _ _ _ Hl). unfold Printer_new.
  unfold Printer_onOperator.
  rewrite run_bind, (is_infix_run _ _ _ _ Hl), Hr. cbv beta iota.
  getattr Hl. run. getattr Hl. run. by rewrite Hw.
Qed.

Lemma render_unfold depth (h : store) root T :
  unfold depth h root = Some T →
  render depth h root = tree_render T.
Proof.
  revert root T. induction depth as [|d IH]; intros l T; [done|].
  cbn [unfold]. destruct (h !! l) as [[a|o]|] eqn:Hl; [| |done].
  - intros [= <-]. by rewrite (render_argument _ _ _ _ Hl).
  - destruct (mapM (unfold d h) (op_args o)) as [ts|] eqn:Hts; [|done].
    intros [= <-]. apply mapM_Some in Hts.
    assert (Forall2 (λ c t, render d h c = tree_render t) (op_args o) ts)
      as Hcs by (eapply Forall2_impl; [exact Hts | eauto]).
    clear Hts. cbn [tree_render]. destruct (routed_infix o) eqn:Hr.
    + remember (op_args o) as cs eqn:Hargs. symmetry in Hargs.
      destruct Hcs as [|c0 t0 cs ts H0 Hcs].
      { eapply render_infix_raises; [done..|].
        by apply (onInfix_no_child _ _ _ _ _ Hl). }
      destruct Hcs as [|c1 t1 cs ts H1 Hcs].
      { destruct (tree_render t0) as [s0|e] eqn:Ht0; simpl.
        - eapply render_infix_raises; [done..|].
          by apply (onInfix_one_child _ _ _ _ _ _ _ Hl Hargs H0).
        - destruct (onInfix_first_raises _ _ _ _ _ _ _ "" Hl Hargs H0)
            as [w' Hw].
          by eapply render_infix_raises. }
      destruct (tree_render t0) as [s0|e] eqn:Ht0; simpl.
      * destruct (tree_render t1) as [s1|e] eqn:Ht1; simpl.
        -- by rewrite (render_run _ _ _ _ _
             (render_infix _ _ _ _ _ _ _ _ _ Hl Hr Hargs H0 H1)).
        -- destruct (onInfix_second_raises _ _ _ _ _ _ _ _ _ ""
                      Hl Hargs H0 H1) as [w' Hw].
           by eapply render_infix_raises.
      * destruct (onInfix_first_raises _ _ _ _ _ _ _ "" Hl Hargs H0)
          as [w' Hw].
        by eapply render_infix_raises.
    + destruct (res_mapM tree_render ts) as [ss|e] eqn:Hss; simpl.
      * apply res_mapM_Ok in Hss.
        assert (Forall2 (λ c s, render d h c = Ok s) (op_args o) ss) as Hok.
        { clear Hl Hr. revert ss Hss.
          induction Hcs as [|c t cs ts Hc _ IHcs]; intros ss Hss.
          - apply Forall2_nil_inv_l in Hss as ->. constructor.
          - apply Forall2_cons_inv_l in Hss as (s0 & ss' & Hs0 & Hss' & ->).
            constructor; [congruence | by apply IHcs]. }
        by rewrite (render_run _ _ _ _ _ (render_call _ _ _ _ _ Hl Hr Hok)).
      * by apply (render_call_raises _ _ _ _ _ _ Hl Hr Hcs).
Qed.

(** X1: on every tree, well-formed or not, a render by the Printer is the
    reading of the tree by structural recursion: the leaf texts, the infix
    form for an Operator with [nin == 2] and [name != symbol], the call form
    for every other one; it raises exactly where the reading does, IndexError
    at an infix Operator with fewer than two children or the first error of
    a child.  From any accumulated output the traversal appends that string,
    or raises that error. *)
Theorem Printer_renders_tree depth (h : store) root T :
  unfold depth h root = Some T →
  render depth h root = tree_render T
  ∧ ∀ s,
      match tree_render T with
      | Ok text =>
          ∃ v, identify depth root (World h (mkPrinter s))
               = (Ok v, World h (mkPrinter (s +:+ text)))
      | Raise e =>
          ∃ w', identify depth root (World h (mkPrinter s)) = (Raise e, w')
      end.
Proof.
  intros HT. pose proof (render_unfold _ _ _ _ HT) as Hrender.
  split; [done|]. intros s.
  destruct (tree_render T) as [text|e].
  - by apply identify_rendered.
  - by apply identify_raised.
Qed.

(** ** Traversals without a reset *)

(** X2: a Printer only ever appends.  From any accumulated output [s], a
    traversal ends with [s] followed by exactly what it writes from an empty
    output, raises exactly when it does from an empty output, and leaves the
    store alone; this also holds when it raises half way. *)
Theorem Printer_traversal_appends depth (h : store) l s :
  let fresh := identify depth l (World h (mkPrinter "")) in
  let run := identify depth l (World h (mkPrinter s)) in
  output (self run.2) = s +:+ output (self fresh.2)
  ∧ run.1 = res_map (λ v, String.append s <$> v) fresh.1
  ∧ heap run.2 = h.
Proof.
  intros fresh run. subst fresh run. by rewrite Printer_identify_run.
Qed.

(** X3: a Printer that is not reset between two traversals renders the
    second tree behind the first: the output is the concatenation of the two
    renders. *)
Theorem Printer_without_reset_concatenates depth1 depth2 (h : store)
    l1 l2 t1 t2 :
  render depth1 h l1 = Ok t1 →
  render depth2 h l2 = Ok t2 →
  let run := (identify depth1 l1;; identify depth2 l2;; get_output)
               (World h Printer_new) in
  run = (Ok (t1 +:+ t2), World h (mkPrinter (t1 +:+ t2))).
Proof.
  intros H1 H2 run. subst run. unfold Printer_new.
  destruct (identify_rendered _ _ _ _ "" H1) as [v1 Hv1].
  destruct (identify_rendered _ _ _ _ ("" +:+ t1) H2) as [v2 Hv2].
  rewrite run_bind, Hv1. cbv beta iota. rewrite run_bind, Hv2. done.
Qed.

Lemma equivariant_args_append l : equivariant same (args_append l).
Proof.
  intros s w. unfold args_append, shifted, prepend, ArgFinder_accumulator.
  simpl. by rewrite (assoc_L (++)).
Qed.

Lemma equivariant_get_getconsts : equivariant same get_getconsts.
Proof. by intros s w. Qed.

Lemma equivariant_get_args : equivariant prefixed_args get_args.
Proof. by intros s w. Qed.

#[local] Hint Resolve equivariant_args_append equivariant_get_getconsts
  equivariant_get_args : equi.

Lemma ArgFinder_identify_equivariant depth l :
  equivariant prefixed_args (identify (V:=ArgFinder) depth l).
Proof.
  apply equivariant_identify.
  - intros l'. unfold ArgFinder_onArgument, wanted. equi.
  - intros rec l' Hrec. unfold ArgFinder_onOperator. equi.
Qed.

(** X4: an ArgFinder only ever appends, on any graph.  From any collected
    list [acc], a traversal ends with [acc] followed by exactly what it
    collects from an empty list, returns that list when it returns, raises
    exactly when it does from an empty list, and keeps [getconsts] and the
    store. *)
Theorem ArgFinder_traversal_appends depth (h : store) l acc gc :
  identify depth l (World h (mkArgFinder acc gc)) =
  (res_map (app acc) (find_outcome gc depth h l),
   World h (mkArgFinder (acc ++ found gc depth h l) gc)).
Proof.
  pose proof (ArgFinder_identify_equivariant depth l acc
                (World h (ArgFinder_new gc))) as E.
  pose proof (ArgFinder_identify_keeps_heap depth l
                (World h (ArgFinder_new gc))) as F.
  pose proof (ArgFinder_identify_keeps_getconsts depth l
                (World h (ArgFinder_new gc))) as G.
  unfold shifted, prepend, ArgFinder_accumulator in E. simpl in E, F, G.
  rewrite (right_id_L [] (++)) in E.
  unfold find_outcome, found. by rewrite E, F, G.
Qed.

(** ** What the operations return *)

Lemma returns_output_bind {A} (m : M Printer A) k :
  (∀ a, returns_output (k a)) → returns_output (m ≫= k).
Proof.
  intros Hk w v w'. rewrite run_bind.
  destruct (m w) as [[a|e] w1]; [apply Hk | done].
Qed.

Lemma returns_output_get : returns_output (out ← get_output; mret (Some out)).
Proof. intros w v w'. by intros [= <- <-]. Qed.

(** X5: what a Printer traversal returns.  When [identify] returns, the
    value is None if the node is an Operator rendered in infix form, and
    otherwise the whole output accumulated so far, not only the text of the
    node. *)
Theorem Printer_return_value depth l (h : store) p v w' :
  identify depth l (World h p) = (Ok v, w') →
  match h !! l with
  | Some (OperatorObj o) =>
      if routed_infix o then v = None else v = Some (output (self w'))
  | _ => v = Some (output (self w'))
  end.
Proof.
  destruct depth as [|d]; [done|].
  destruct (h !! l) as [[a|o]|] eqn:Hl.
  - rewrite (Printer_identify_argument _ _ _ _ _ Hl).
    repeat first [ apply returns_output_get
                 | apply returns_output_bind; intros ? ].
  - rewrite (Printer_identify_operator _ _ _ _ _ Hl).
    unfold Printer_onOperator.
    rewrite run_bind, (is_infix_run _ _ _ _ Hl). cbv beta iota.
    destruct (routed_infix o).
    + rewrite run_bind.
      destruct (Printer__onInfix (identify d) l (World h p)) as [[[]|e] w1];
        [|done].
      by intros [= <- <-].
    + repeat first [ apply returns_output_get
                   | apply returns_output_bind; intros ? ].
  - cbn [identify heap]. by rewrite Hl.
Qed.

(** X6: what an ArgFinder traversal returns.  Whenever [identify] returns,
    on any graph and from any state, the value is the whole list [self.args]
    as it stands after the call. *)
Theorem ArgFinder_return_value depth l (w w' : world ArgFinder) r :
  identify depth l w = (Ok r, w') → r = args (self w').
Proof.
  destruct w as [h v]. destruct depth as [|d]; [done|].
  assert (∀ A (m : M ArgFinder A) w r w',
            (m;; get_args) w = (Ok r, w') → r = args (self w')) as Hget.
  { intros A m w1 r1 w1'. rewrite run_bind.
    destruct (m w1) as [[a|e] w2]; [|done]. by intros [= <- <-]. }
  destruct (h !! l) as [[a|o]|] eqn:Hl.
  - rewrite (ArgFinder_identify_argument _ _ _ _ _ Hl).
    unfold ArgFinder_onArgument. rewrite run_bind.
    destruct (wanted l (World h v)) as [[keep|e] w1]; [|done]. apply Hget.
  - rewrite (ArgFinder_identify_operator _ _ _ _ _ Hl).
    unfold ArgFinder_onOperator. rewrite run_bind.
    destruct (op_attr op_args l (World h v)) as [[cs|e] w1]; [|done].
    apply Hget.
  - cbn [identify heap]. by rewrite Hl.
Qed.

(** ** Errors leave what was written *)

(** X7: the Printer does not undo what it wrote when the infix branch
    fails.  An Operator with [nin == 2] and [name != symbol] without
    children raises IndexError with ["("] appended to the output; with one
    child that renders to [t] it raises IndexError with ["("], [t] and the
    spaced symbol appended. *)
Theorem Printer_error_keeps_partial_output depth (h : store) l o s :
  h !! l = Some (OperatorObj o) →
  op_nin o = 2%Z →
  Some (op_name o) ≠ op_symbol o →
  (op_args o = [] →
     identify (S depth) l (World h (mkPrinter s))
     = (Raise IndexError, World h (mkPrinter (s +:+ "("))))
  ∧ (∀ c t, op_args o = [c] → render depth h c = Ok t →
     identify (S depth) l (World h (mkPrinter s))
     = (Raise IndexError,
        World h (mkPrinter
          (s +:+ "(" +:+ t +:+ " " +:+ str (op_symbol o) +:+ " ")))).
Proof.
  intros Hl Hnin Hne.
  assert (routed_infix o = true) as Hr by by apply routed_infix_true.
  split.
  - intros Hargs. rewrite (Printer_identify_operator _ _ _ _ _ Hl).
    rewrite (onOperator_infix_run _ _ _ _ _ Hl Hr), run_bind.
    by rewrite (onInfix_no_child _ _ _ _ _ Hl Hargs).
  - intros c t Hargs Hc. rewrite (Printer_identify_operator _ _ _ _ _ Hl).
    rewrite (onOperator_infix_run _ _ _ _ _ Hl Hr), run_bind.
    by rewrite (onInfix_one_child _ _ _ _ _ _ _ Hl Hargs Hc).
Qed.

(** ** What an ArgFinder collects on any graph *)

Section Maintains.

Context {V : Type} (Q : world V → Prop).

Lemma maintains_bind {A B} (m : M V A) (k : A → M V B) :
  maintains Q m → (∀ a, maintains Q (k a)) → maintains Q (m ≫= k).
Proof.
  intros Hm Hk w HQ. rewrite run_bind. specialize (Hm w HQ).
  destruct (m w) as [[a|e] w1]; simpl in *; [by apply Hk | done].
Qed.

Lemma maintains_unchanged {A} (m : M V A) :
  (∀ w, (m w).2 = w) → maintains Q m.
Proof. intros Hm w HQ. by rewrite Hm. Qed.

Lemma maintains_for_each {A} (body : A → M V unit) xs :
  (∀ x, maintains Q (body x)) → maintains Q (for_each body xs).
Proof.
  intros Hb. induction xs as [|x xs IH]; simpl.
  - by apply maintains_unchanged.
  - apply maintains_bind; auto.
Qed.

End Maintains.

Lemma op_attr_unchanged {V A} (f : Operator → A) l (w : world V) :
  (op_attr f l w).2 = w.
Proof. unfold op_attr. by destruct (heap w !! l) as [[]|]. Qed.

Lemma ArgFinder_identify_only_kept depth l :
  maintains only_kept_arguments (identify depth l).
Proof.
  revert l. induction depth as [|d IH]; intros l [h [acc gc]] HQ; [done|].
  destruct (h !! l) as [[a|o]|] eqn:Hl.
  - rewrite (ArgFinder_identify_argument _ _ _ _ _ Hl).
    rewrite (ArgFinder_onArgument_run _ _ _ _ _ Hl).
    unfold only_kept_arguments in *. simpl in *.
    destruct (gc || negb (arg_const a)) eqn:Hkeep; [|done].
    apply Forall_app. split; [done|]. constructor; [|done].
    exists a. split; [done|]. intros ->. simpl in Hkeep.
    by destruct (arg_const a).
  - rewrite (ArgFinder_identify_operator _ _ _ _ _ Hl).
    revert HQ. generalize (World h (mkArgFinder acc gc)).
    change (maintains only_kept_arguments
              (ArgFinder_onOperator (identify d) l)).
    unfold ArgFinder_onOperator.
    apply maintains_bind; [apply maintains_unchanged, op_attr_unchanged|].
    intros cs. apply maintains_bind; [|by intros _; apply maintains_unchanged].
    apply maintains_for_each. intros c.
    apply maintains_bind; [apply IH | by intros _; apply maintains_unchanged].
  - cbn [identify heap]. by rewrite Hl.
Qed.

(** X8: on any graph, cyclic or malformed ones included, and also when the
    traversal raises, every entry an ArgFinder has collected refers to an
    Argument of the store, never to an Operator, and with
    [getconsts = False] to an Argument whose [const] flag is false. *)
Theorem ArgFinder_collects_only_arguments depth (h : store) l gc :
  Forall (holds_kept_argument h gc) (found gc depth h l).
Proof.
  pose proof (ArgFinder_identify_only_kept depth l
                (World h (ArgFinder_new gc))) as HQ.
  unfold only_kept_arguments in HQ.
  rewrite (ArgFinder_identify_keeps_heap depth l (World h _)) in HQ.
  rewrite (ArgFinder_identify_keeps_getconsts depth l (World h _)) in HQ.
  apply HQ. constructor.
Qed.

(** ** The recursion depth *)

Section Extends.

Context {V : Type}.

Lemma extends_refl {A} (m : M V A) : extends m m.
Proof. by intros w r w' Hm _. Qed.

Lemma extends_bind {A B} (m m' : M V A) (k k' : A → M V B) :
  extends m m' → (∀ a, extends (k a) (k' a)) →
  extends (m ≫= k) (m' ≫= k').
Proof.
  intros Hm Hk w r w'. rewrite !run_bind.
  destruct (m w) as [[a|e] w1] eqn:Hmw.
  - intros Hka Hr. rewrite (Hm _ _ _ Hmw) by discriminate. by apply Hk.
  - intros [= <- <-] Hr. rewrite (Hm _ _ _ Hmw); [done|].
    intros [= ->]. by apply Hr.
Qed.

Lemma extends_for_enumerate {A} (body body' : nat → A → M V unit) idx xs :
  (∀ i x, extends (body i x) (body' i x)) →
  extends (for_enumerate body idx xs) (for_enumerate body' idx xs).
Proof.
  intros Hb. revert idx. induction xs as [|x xs IH]; intros idx; simpl.
  - apply extends_refl.
  - apply extends_bind; auto.
Qed.

Lemma extends_for_each {A} (body body' : A → M V unit) xs :
  (∀ x, extends (body x) (body' x)) →
  extends (for_each body xs) (for_each body' xs).
Proof.
  intros Hb. induction xs as [|x xs IH]; simpl.
  - apply extends_refl.
  - apply extends_bind; auto.
Qed.

Lemma extends_identify `{!Visitor V R} :
  (∀ rec rec' l, (∀ l', extends (rec l') (rec' l')) →
     extends (onOperator rec l) (onOperator rec' l)) →
  ∀ depth depth' l, (depth ≤ depth')%nat →
    extends (identify depth l) (identify depth' l).
Proof.
  intros HO depth. induction depth as [|d IH]; intros depth' l Hle w r w'.
  - by intros [= <- <-].
  - destruct depth' as [|d']; [lia|]. simpl.
    destruct (heap w !! l) as [[a|o]|]; [done| |done].
    apply HO. intros l'. apply IH. lia.
Qed.

End Extends.

Ltac extend :=
  repeat first
    [ apply extends_refl
    | apply extends_bind; [|intros ?]
    | apply extends_for_enumerate; intros ? ?
    | apply extends_for_each; intros ?
    | progress auto
    | match goal with |- extends (if ?b then _ else _) _ => destruct b end ].

(** X9: the recursion depth only matters when it is exhausted.  A
    traversal, by either visitor and on any graph, that ends otherwise than
    by running out of depth returns or raises the same and leaves the same
    state at every greater depth. *)
Theorem identify_at_greater_depth depth depth' l :
  (depth ≤ depth')%nat →
  (∀ (w w' : world Printer) r,
     identify depth l w = (r, w') → r ≠ Raise RecursionError →
     identify depth' l w = (r, w'))
  ∧ (∀ (w w' : world ArgFinder) r,
     identify depth l w = (r, w') → r ≠ Raise RecursionError →
     identify depth' l w = (r, w')).
Proof.
  intros Hle. split; intros w w' r.
  - apply (extends_identify (V:=Printer)); [|done].
    intros rec rec' l' Hrec. simpl.
    unfold Printer_onOperator, Printer__onInfix. extend.
  - apply (extends_identify (V:=ArgFinder)); [|done].
    intros rec rec' l' Hrec. simpl.
    unfold ArgFinder_onOperator. extend.
Qed.

(** ** What the visitors do not look at *)

Section Agree.

Context (sim : Literal → Literal → Prop) (h h' : store).
Hypothesis Hrel : stores_related sim h h'.
Hypothesis Hkind : ∀ x y, sim x y →
  match x, y with
  | ArgumentObj _, ArgumentObj _ | OperatorObj _, OperatorObj _ => True
  | _, _ => False
  end.

Lemma agree_ret {V A} (a : A) : agree h h' (mret a : M V A).
Proof. intros v. by eexists _, _. Qed.

Lemma agree_bind {V A B} (m : M V A) (k : A → M V B) :
  agree h h' m → (∀ a, agree h h' (k a)) → agree h h' (m ≫= k).
Proof.
  intros Hm Hk v. destruct (Hm v) as (r & v1 & E & E').
  rewrite !run_bind, E, E'. destruct r as [a|e]; [apply Hk|].
  by eexists _, _.
Qed.

Lemma agree_subscript {V A} (xs : list A) i :
  agree h h' (subscript xs i : M V A).
Proof. intros v. unfold subscript. destruct (xs !! i); by eexists _, _. Qed.

Lemma agree_for_enumerate {V A} (body : nat → A → M V unit) idx xs :
  (∀ i x, agree h h' (body i x)) → agree h h' (for_enumerate body idx xs).
Proof.
  intros Hb. revert idx. induction xs as [|x xs IH]; intros idx; simpl.
  - apply agree_ret.
  - apply agree_bind; auto.
Qed.

Lemma agree_for_each {V A} (body : A → M V unit) xs :
  (∀ x, agree h h' (body x)) → agree h h' (for_each body xs).
Proof.
  intros Hb. induction xs as [|x xs IH]; simpl.
  - apply agree_ret.
  - apply agree_bind; auto.
Qed.

Lemma agree_arg_attr {V A} (f : Argument → A) l :
  (∀ a a', sim (ArgumentObj a) (ArgumentObj a') → f a = f a') →
  agree h h' (arg_attr f l : M V A).
Proof.
  intros Hf v. unfold arg_attr. simpl.
  destruct (Hrel l) as [x y Hxy|]; [|by eexists _, _].
  pose proof (Hkind _ _ Hxy) as Hk.
  destruct x as [a|o], y as [a'|o']; try done; [|by eexists _, _].
  rewrite (Hf _ _ Hxy). by eexists _, _.
Qed.

Lemma agree_op_attr {V A} (f : Operator → A) l :
  (∀ o o', sim (OperatorObj o) (OperatorObj o') → f o = f o') →
  agree h h' (op_attr f l : M V A).
Proof.
  intros Hf v. unfold op_attr. simpl.
  destruct (Hrel l) as [x y Hxy|]; [|by eexists _, _].
  pose proof (Hkind _ _ Hxy) as Hk.
  destruct x as [a|o], y as [a'|o']; try done; [by eexists _, _|].
  rewrite (Hf _ _ Hxy). by eexists _, _.
Qed.

Lemma agree_identify `{!Visitor V R} :
  (∀ l, agree h h' (onArgument l)) →
  (∀ rec l, (∀ l', agree h h' (rec l')) → agree h h' (onOperator rec l)) →
  ∀ depth l, agree h h' (identify depth l).
Proof.
  intros HA HO depth. induction depth as [|d IH]; intros l v.
  - by eexists _, _.
  - cbn [identify heap]. destruct (Hrel l) as [x y Hxy|]; [|by eexists _, _].
    pose proof (Hkind _ _ Hxy) as Hk.
    destruct x as [a|o], y as [a'|o']; try done; [apply HA | by apply HO].
Qed.

End Agree.

Ltac agreeing :=
  repeat first
    [ apply agree_ret
    | apply agree_subscript
    | apply agree_bind; [|intros ?]
    | apply agree_for_enumerate; intros ? ?
    | apply agree_for_each; intros ?
    | progress eauto
    | case_decide
    | match goal with |- agree _ _ (if ?b then _ else _) => destruct b end
    | by (intros ?; eexists _, _) ].

(** X10: an ArgFinder looks at nothing but [args] of Operators and, when
    [getconsts] is false, [const] of Arguments.  On two stores whose
    objects agree on these, whatever their names, values, symbols and [nin]
    are, it finds the same list, or raises the same. *)
Theorem ArgFinder_reads_only_links (h h' : store) gc depth l :
  stores_related same_links h h' →
  find gc depth h l = find gc depth h' l.
Proof.
  intros Hrel.
  assert (∀ x y : Literal, same_links x y →
            match x, y with
            | ArgumentObj _, ArgumentObj _
            | OperatorObj _, OperatorObj _ => True
            | _, _ => False
            end) as Hkind by (by intros [] []).
  assert (∀ l', agree h h' (arg_attr arg_const l' : M ArgFinder bool))
    as Hconst.
  { intros l'. apply (agree_arg_attr same_links h h' Hrel Hkind).
    by intros a a' Hs. }
  assert (∀ l', agree h h' (op_attr op_args l' : M ArgFinder (list loc)))
    as Hargs.
  { intros l'. apply (agree_op_attr same_links h h' Hrel Hkind).
    by intros o o' Hs. }
  assert (agree h h' (identify (V:=ArgFinder) depth l;; get_args)) as Hag.
  { apply agree_bind; [|by intros _ v; eexists _, _].
    apply (agree_identify same_links h h' Hrel Hkind).
    - intros l'. simpl. unfold ArgFinder_onArgument, wanted. agreeing.
    - intros rec l' Hrec. simpl. unfold ArgFinder_onOperator. agreeing. }
  destruct (Hag (ArgFinder_new gc)) as (r & v' & E & E').
  unfold find. by rewrite E, E'.
Qed.

(** X11: a Printer looks at nothing but [name] and [value] of Arguments
    and [name], [symbol], [nin] and [args] of Operators.  On two stores
    whose objects agree on these, whatever the [const] flags are, a render
    gives the same string, or raises the same. *)
Theorem Printer_reads_only_text (h h' : store) depth l :
  stores_related same_text h h' →
  render depth h l = render depth h' l.
Proof.
  intros Hrel.
  assert (∀ x y : Literal, same_text x y →
            match x, y with
            | ArgumentObj _, ArgumentObj _
            | OperatorObj _, OperatorObj _ => True
            | _, _ => False
            end) as Hkind by (by intros [] []).
  assert (∀ l', agree h h' (arg_attr arg_name l' : M Printer _)) as Hname.
  { intros l'. apply (agree_arg_attr same_text h h' Hrel Hkind).
    by intros a a' [? ?]. }
  assert (∀ l', agree h h' (arg_attr arg_value l' : M Printer _)) as Hvalue.
  { intros l'. apply (agree_arg_attr same_text h h' Hrel Hkind).
    by intros a a' [? ?]. }
  assert (∀ A (f : Operator → A) l', agree h h' (op_attr f l' : M Printer A))
    as Hop.
  { intros A f l'. apply (agree_op_attr same_text h h' Hrel Hkind).
    by intros o o' ->. }
  assert (agree h h' (identify (V:=Printer) depth l;; get_output)) as Hag.
  { apply agree_bind; [|by intros _ v; eexists _, _].
    apply (agree_identify same_text h h' Hrel Hkind).
    - intros l'. simpl. unfold Printer_onArgument. agreeing.
    - intros rec l' Hrec. simpl.
      unfold Printer_onOperator, is_infix, Printer__onInfix. agreeing. }
  destruct (Hag Printer_new) as (r & v' & E & E').
  unfold render. by rewrite E, E'.
Qed.

(** ** Parentheses *)

Lemma count_char_append c s t :
  count_char c (s +:+ t) = count_char c s + count_char c t.
Proof.
  induction s as [|c' s IH]; [done|].
  change (String c' s +:+ t) with (String c' (s +:+ t)).
  cbn [count_char]. rewrite IH. lia.
Qed.

(** The excess of opening over closing parentheses. *)
Lemma balanced_spec s :
  balanced s = true ↔ count_char "("%char s = count_char ")"%char s.
Proof. unfold balanced. apply Nat.eqb_eq. Qed.

Lemma balanced_append s t :
  balanced s = true → balanced t = true → balanced (s +:+ t) = true.
Proof.
  rewrite !balanced_spec, !count_char_append. lia.
Qed.

Lemma balanced_wrap s t :
  balanced s = true → balanced t = true →
  balanced (s +:+ "(" +:+ t +:+ ")") = true.
Proof.
  rewrite !balanced_spec, !count_char_append. simpl. lia.
Qed.

Lemma balanced_concat ss :
  Forall (λ s, balanced s = true) ss →
  balanced (String.concat ", " ss) = true.
Proof.
  induction 1 as [|s ss Hs Hss IH]; [done|].
  destruct ss as [|s' ss]; [done|].
  change (String.concat ", " (s :: s' :: ss))
    with (s +:+ ", " +:+ String.concat ", " (s' :: ss)).
  apply balanced_append; [done|]. by apply (balanced_append ", ").
Qed.

Lemma tree_render_balanced (T : tree) :
  labels_balanced T = true →
  ∀ s, tree_render T = Ok s → balanced s = true.
Proof.
  induction T as [l a|l o ts IH] using tree_ind; cbn [labels_balanced tree_render].
  - by intros Ha s [= <-].
  - rewrite andb_true_iff. intros [Hlabel Hts] s.
    assert (Forall (λ t, ∀ s, tree_render t = Ok s → balanced s = true) ts)
      as Hchildren.
    { clear Hlabel. induction IH as [|t ts Ht _ IHts]; [done|].
      simpl in Hts. apply andb_true_iff in Hts as [Hbt Hbts].
      constructor; auto. }
    clear IH Hts. destruct (routed_infix o).
    + destruct Hchildren as [|t0 ts H0 Hchildren]; [done|].
      destruct Hchildren as [|t1 ts H1 _].
      { by destruct (tree_render t0). }
      destruct (tree_render t0) as [s0|] eqn:Ht0; [|done]. simpl.
      destruct (tree_render t1) as [s1|] eqn:Ht1; [|done]. simpl.
      intros [= <-]. specialize (H0 _ eq_refl). specialize (H1 _ eq_refl).
      apply balanced_spec in H0, H1, Hlabel. apply balanced_spec.
      rewrite !count_char_append. simpl. lia.
    + destruct (res_mapM tree_render ts) as [ss|] eqn:Hss; [|done]. simpl.
      intros [= <-]. apply res_mapM_Ok in Hss.
      apply balanced_wrap; [done|]. apply balanced_concat.
      clear Hlabel. revert ss Hss.
      induction Hchildren as [|t ts Ht _ IHts]; intros ss Hss.
      * by apply Forall2_nil_inv_l in Hss as ->.
      * apply Forall2_cons_inv_l in Hss as (s0 & ss' & Hs0 & Hss' & ->).
        constructor; eauto.
Qed.

(** X12: a render that succeeds is balanced.  When every text taken from
    the nodes (leaf names or values, names of Operators rendered as calls,
    symbols of Operators rendered infix) has as many ["("] as [")"], so has
    the rendered string. *)
Theorem Printer_render_balanced depth (h : store) root T s :
  unfold depth h root = Some T →
  labels_balanced T = true →
  render depth h root = Ok s →
  count_char "("%char s = count_char ")"%char s.
Proof.
  intros HT Hlabels. rewrite (render_unfold _ _ _ _ HT).
  intros Hs. by apply balanced_spec, (tree_render_balanced T).
Qed.

End Properties.

(** * The properties on the sample graph *)

Module Checks.

Import Samples.

Example render_add : render 2 h add = Ok "(x + y)".
Proof. vm_compute. reflexivity. Qed.

Example render_nested : render 3 h mul = Ok "((x + y) * 2)".
Proof. vm_compute. reflexivity. Qed.

Example render_sin : render 4 h sin = Ok "sin(((x + y) * 2))".
Proof. vm_compute. reflexivity. Qed.

Example render_nullary : render 1 h nullary = Ok "rand()".
Proof. vm_compute. reflexivity. Qed.

Example render_too_deep : render 3 h sin = Raise RecursionError.
Proof. vm_compute. reflexivity. Qed.

Example find_all : find true 4 h sin = Ok [x; y; two].
Proof. vm_compute. reflexivity. Qed.

Example find_variables : find false 4 h sin = Ok [x].
Proof. vm_compute. reflexivity. Qed.

Example find_shared : find true 2 h twice = Ok [x; x].
Proof. vm_compute. reflexivity. Qed.

(** C1: [Printer.onOperator] does not return the accumulated output when it
    takes the infix branch.  On [add(x, y)] with [name = "add"],
    [symbol = "+"], [nin = 2], the call made by [identify] returns None
    while the Printer has accumulated ["(x + y)"]; the function-call branch,
    [Printer.onArgument] and both ArgFinder operations return their
    accumulator. *)
Theorem Printer_onOperator_infix_returns_None :
  let run := identify 2 add (World h Printer_new) in
  run.1 = Ok None
  ∧ output (self run.2) = "(x + y)"
  ∧ (identify 1 x (World h Printer_new)).1 = Ok (Some "x")
  ∧ (identify 4 sin (World h Printer_new)).1 = Ok (Some "sin(((x + y) * 2))")
  ∧ (identify 2 add (World h (ArgFinder_new true))).1 = Ok [x; y].
Proof. vm_compute. done. Qed.

Lemma Printer_argument_rendering_witness :
  render 1 h x = Ok "x" ∧ render 1 h two = Ok "2".
Proof.
  split.
  - exact (proj2 (Printer_argument_rendering h x _ "" 0 eq_refl)).
  - exact (proj2 (Printer_argument_rendering h two _ "" 0 eq_refl)).
Defined.

Lemma Printer_name_test_is_None_witness :
  render 1 h blank = Ok "" ∧ render 1 h two = Ok "2".
Proof.
  split.
  - exact (proj1 (proj1 (Printer_name_test_is_None h blank _ 0 eq_refl)
                    "" eq_refl)).
  - exact (proj2 (proj2 (Printer_name_test_is_None h two _ 0 eq_refl))
             eq_refl).
Defined.

Lemma Printer_infix_rendering_witness : render 2 h add = Ok "(x + y)".
Proof.
  refine (proj1 (Printer_infix_rendering 1 h add _ x y [] "x" "y"
                   eq_refl eq_refl _ eq_refl eq_refl eq_refl)).
  discriminate.
Defined.

Lemma Printer_call_rendering_witness :
  render 4 h sin = Ok "sin(((x + y) * 2))".
Proof.
  refine (proj1 (Printer_call_rendering 3 h sin _ ["((x + y) * 2)"]
                   eq_refl (or_introl _) _)).
  - discriminate.
  - repeat constructor.
Defined.

Lemma ArgFinder_collects_occurrences_witness :
  find true 4 h sin = Ok [x; y; two] ∧ find false 4 h sin = Ok [x].
Proof.
  destruct (ArgFinder_collects_occurrences 4 h sin _ eq_refl) as [Hfind _].
  split; [exact (Hfind true) | exact (Hfind false)].
Defined.

Lemma Printer_errors_only_on_malformed_witness :
  is_Ok (render 4 h sin) = true
  ∧ is_Ok (render 2 h add) = true
  ∧ render 2 h bad = Raise IndexError.
Proof.
  split; [|split].
  - exact (proj1 (Printer_errors_only_on_malformed 4 h sin) _ eq_refl eq_refl).
  - refine (proj2 (proj1 (proj2 (Printer_errors_only_on_malformed 1 h add))
              _ eq_refl eq_refl _ _) _).
    + discriminate.
    + simpl. lia.
    + repeat constructor.
  - refine (proj2 (proj2 (Printer_errors_only_on_malformed 1 h bad))
              _ eq_refl eq_refl _ _ _).
    + discriminate.
    + simpl. lia.
    + intros c [= <-]. reflexivity.
Defined.

End Checks.

(** * The further properties on sample graphs *)

Module MoreChecks.

Import Samples.

(** An infix Operator without children, next to the sample graph. *)
Definition childless : loc := 11%positive.

Definition h2 : gmap loc (@Literal Z) :=
  <[childless := OperatorObj (mkOperator "divide" (Some "/") 2 [])]> h.

(** The sample graph with every name, value, symbol and arity replaced. *)
Definition anonymous (x : @Literal Z) : @Literal Z :=
  match x with
  | ArgumentObj a => ArgumentObj (mkArgument None 0%Z (arg_const a))
  | OperatorObj o => OperatorObj (mkOperator "f" None 0 (op_args o))
  end.

(** The sample graph with every [const] flag raised. *)
Definition frozen (x : @Literal Z) : @Literal Z :=
  match x with
  | ArgumentObj a => ArgumentObj (mkArgument (arg_name a) (arg_value a) true)
  | OperatorObj o => OperatorObj o
  end.

Example find_anonymous : find false 4 (anonymous <$> h) sin = Ok [x].
Proof. vm_compute. reflexivity. Qed.

Example render_frozen : render 4 (frozen <$> h) sin = Ok "sin(((x + y) * 2))".
Proof. vm_compute. reflexivity. Qed.

Lemma Printer_renders_tree_witness :
  render 4 h sin = Ok "sin(((x + y) * 2))"
  ∧ render 2 h bad = Raise IndexError.
Proof.
  split.
  - exact (proj1 (Printer_renders_tree 4 h sin _ eq_refl)).
  - exact (proj1 (Printer_renders_tree 2 h bad _ eq_refl)).
Defined.

Lemma Printer_without_reset_concatenates_witness :
  (identify 2 add;; identify 1 x;; get_output) (World h Printer_new)
  = (Ok "(x + y)x", World h (mkPrinter "(x + y)x")).
Proof.
  exact (Printer_without_reset_concatenates 2 1 h add x "(x + y)" "x"
           eq_refl eq_refl).
Defined.

Lemma Printer_return_value_witness :
  (∀ v w', identify 2 add (World h Printer_new) = (Ok v, w') → v = None)
  ∧ (∀ v w', identify 4 sin (World h Printer_new) = (Ok v, w') →
       v = Some (output (self w'))).
Proof.
  split; intros v w' Hrun.
  - exact (Printer_return_value 2 add h Printer_new v w' Hrun).
  - exact (Printer_return_value 4 sin h Printer_new v w' Hrun).
Defined.

Lemma ArgFinder_return_value_witness :
  [x; y; two] = args (self (World h (mkArgFinder [x; y; two] true))).
Proof.
  exact (ArgFinder_return_value 4 sin (World h (ArgFinder_new true))
           (World h (mkArgFinder [x; y; two] true)) [x; y; two] eq_refl).
Defined.

Lemma Printer_error_keeps_partial_output_witness :
  identify 1 childless (World h2 (mkPrinter "1 + "))
    = (Raise IndexError, World h2 (mkPrinter "1 + ("))
  ∧ identify 2 bad (World h (mkPrinter "1 + "))
    = (Raise IndexError, World h (mkPrinter "1 + (x - ")).
Proof.
  split.
  - refine (proj1 (Printer_error_keeps_partial_output 0 h2 childless _
                     "1 + " eq_refl eq_refl _) eq_refl).
    discriminate.
  - refine (proj2 (Printer_error_keeps_partial_output 1 h bad _
                     "1 + " eq_refl eq_refl _) x "x" eq_refl eq_refl).
    discriminate.
Defined.

Lemma identify_at_greater_depth_witness :
  identify 10 sin (World h Printer_new)
    = (Ok (Some "sin(((x + y) * 2))"),
       World h (mkPrinter "sin(((x + y) * 2))"))
  ∧ identify 10 bad (World h (ArgFinder_new true))
    = (Ok [x], World h (mkArgFinder [x] true)).
Proof.
  split.
  - refine (proj1 (identify_at_greater_depth 4 10 sin _)
              (World h Printer_new) (World h (mkPrinter "sin(((x + y) * 2))"))
              (Ok (Some "sin(((x + y) * 2))")) eq_refl _);
      [lia | discriminate].
  - refine (proj2 (identify_at_greater_depth 2 10 bad _)
              (World h (ArgFinder_new true)) (World h (mkArgFinder [x] true))
              (Ok [x]) eq_refl _);
      [lia | discriminate].
Defined.

Lemma ArgFinder_reads_only_links_witness :
  find false 4 h sin = find false 4 (anonymous <$> h) sin.
Proof.
  apply ArgFinder_reads_only_links. intros l. rewrite lookup_fmap.
  destruct (h !! l) as [[a|o]|]; constructor; reflexivity.
Defined.

Lemma Printer_reads_only_text_witness :
  render 4 h sin = render 4 (frozen <$> h) sin.
Proof.
  apply Printer_reads_only_text. intros l. rewrite lookup_fmap.
  destruct (h !! l) as [[a|o]|]; constructor; simpl; auto.
Defined.

Lemma Printer_render_balanced_witness :
  count_char "("%char "sin(((x + y) * 2))"
  = count_char ")"%char "sin(((x + y) * 2))".
Proof.
  exact (Printer_render_balanced 4 h sin _ "sin(((x + y) * 2))"
           eq_refl eq_refl eq_refl).
Defined.

End MoreChecks.
